(** * ReactiveUnorderedMap: a std::unordered_map wrapper that emits signals

    Shallow embedding of [reactive_unordered_map.hpp].

    - [std::unordered_map<Key, Value, Hash, KeyEq>] is the list of its
      nodes in iteration order; an iterator is a position in that list and
      [end()] is the position one past the last node.  A position names a
      node only until the container is next modified.
    - [KeyEq] is a decidable equality on [Key]; [Hash] decides where a new
      node lands in iteration order, which the C++ standard leaves open.
    - Every member function is a computation in a small monad over the
      program state: the container, its signal emitter, and the state the
      connected callbacks write to.
    - A key passed by reference may be the key of a node of the container
      itself; [erase] keeps such a reference in the signal it emits after
      the node is gone. *)

From stdpp Require Import base option list strings.

Set Default Proof Using "Type*".

(** ** Signals (struct MapSignals) *)

Inductive MapSignal (Key Value : Type) : Type :=
  | Inserted (key : Key) (value : Value)
  | Updated (key : Key) (old_value new_value : Value)
  | Erased (key : Key) (old_value : Value)
  | Cleared
  | Rehashed (old_bucket_count new_bucket_count : nat)
  | Reserved (new_capacity : nat).

Arguments Inserted {Key Value} key value.
Arguments Updated {Key Value} key old_value new_value.
Arguments Erased {Key Value} key old_value.
Arguments Cleared {Key Value}.
Arguments Rehashed {Key Value} old_bucket_count new_bucket_count.
Arguments Reserved {Key Value} new_capacity.

(** The emitter dispatches on the C++ type of the signal object. *)
Inductive SignalKind : Type :=
  | KInserted | KUpdated | KErased | KCleared | KRehashed | KReserved.

#[global] Instance SignalKind_eq_dec : EqDecision SignalKind.
Proof. solve_decision. Defined.

Definition kind_of {Key Value} (s : MapSignal Key Value) : SignalKind :=
  match s with
  | Inserted _ _ => KInserted
  | Updated _ _ _ => KUpdated
  | Erased _ _ => KErased
  | Cleared => KCleared
  | Rehashed _ _ => KRehashed
  | Reserved _ => KReserved
  end.

(** ** std::unordered_map *)

(** The hash policy: where the table links a node for a key that is not in
    it yet.  The standard fixes no iteration order and lets an insertion
    rehash, so all that is known is that afterwards the nodes are the old
    ones and the new one. *)
Class HashPolicy (Key Value : Type) : Type := {
  link_node : Key → Value → list (Key * Value) → list (Key * Value);
  link_node_perm k v m : link_node k v m ≡ₚ (k, v) :: m
}.

(** The simplest policy links every new node in front. *)
Definition front_policy (Key Value : Type) : HashPolicy Key Value :=
  {| link_node k v m := (k, v) :: m;
     link_node_perm k v m := reflexivity _ |}.

(** What the member functions throw: [std::out_of_range] from [at], and
    the allocation failures of [reserve]. *)
Inductive exception : Type :=
  | out_of_range
  | bad_alloc
  | bad_array_new_length.

(** A [const Key &] argument: it refers to a key object of the caller's,
    or to the key of the node under an iterator of this very container
    (the caller wrote [it->first]). *)
Inductive KeyRef (Key : Type) : Type :=
  | caller_key (key : Key)
  | stored_key (pos : nat).

Arguments caller_key {Key} key.
Arguments stored_key {Key} pos.

Abbreviation unordered_map Key Value := (list (Key * Value)) (only parsing).
Abbreviation iterator := nat (only parsing).

Section unordered_map.
Context {Key Value : Type} `{EqDecision Key} `{!HashPolicy Key Value}.

Implicit Types (m : unordered_map Key Value) (k : Key) (v : Value).
Implicit Types (pos : iterator).

Definition um_begin m : iterator := 0.
Definition um_end m : iterator := length m.
Definition um_size m : nat := length m.
Definition um_empty m : bool := bool_decide (length m = 0).

(** [*it]: the node under an iterator; nothing under [end()]. *)
Definition um_deref pos m : option (Key * Value) := m !! pos.

Definition um_find k m : iterator :=
  match list_find (λ e, e.1 = k) m with
  | Some (i, _) => i
  | None => um_end m
  end.

(** [at] throws [std::out_of_range] when there is no such key. *)
Definition um_at k m : exception + Value :=
  match um_deref (um_find k m) m with
  | Some e => inr e.2
  | None => inl out_of_range
  end.

(** [emplace] and [try_emplace] link a node only when the key is new (the
    container size changes by one at most). *)
Definition um_emplace k v m
    : (iterator * bool) * unordered_map Key Value :=
  let it := um_find k m in
  if decide (it = um_end m) then
    let m' := link_node k v m in ((um_find k m', true), m')
  else ((it, false), m).

Definition um_try_emplace {Args : Type} (ctor : Args → Value)
    k (args : Args) m : (iterator * bool) * unordered_map Key Value :=
  let it := um_find k m in
  if decide (it = um_end m) then
    let m' := link_node k (ctor args) m in ((um_find k m', true), m')
  else ((it, false), m).

(** [insert_or_assign] assigns to the mapped value of the node found. *)
Definition um_assign pos v m : unordered_map Key Value :=
  match m !! pos with
  | Some e => <[pos := (e.1, v)]> m
  | None => m
  end.

Definition um_insert_or_assign k v m
    : (iterator * bool) * unordered_map Key Value :=
  let it := um_find k m in
  if decide (it = um_end m) then
    let m' := link_node k v m in ((um_find k m', true), m')
  else ((it, false), um_assign it v m).

(** [operator[]] value-initialises the mapped value of a new key. *)
Definition um_subscript `{!Inhabited Value} k m
    : iterator * unordered_map Key Value :=
  let it := um_find k m in
  if decide (it = um_end m) then
    let m' := link_node k inhabitant m in (um_find k m', m')
  else (it, m).

(** [erase(key)] unlinks the node of the key and counts it: 0 or 1. *)
Definition um_erase k m : nat * unordered_map Key Value :=
  let it := um_find k m in
  if decide (it = um_end m) then (0, m) else (1, delete it m).

(** [erase(pos)] needs a dereferenceable iterator; the other nodes keep
    their relative order, so the node that followed is now at [pos]. *)
Definition um_erase_pos pos m
    : option (iterator * unordered_map Key Value) :=
  match m !! pos with
  | Some _ => Some (pos, delete pos m)
  | None => None
  end.

Definition um_clear m : unordered_map Key Value := [].

(** What [find] gives once dereferenced: the mapped value, if any. *)
Definition lookup_value k m : option Value :=
  snd <$> um_deref (um_find k m) m.

(** The keys of the nodes, in iteration order. *)
Definition um_keys m : list Key := m.*1.

(** The class invariant of [std::unordered_map]: keys are unique. *)
Definition unique_keys m : Prop := NoDup (um_keys m).

(** Number of distinct keys among the nodes. *)
Definition distinct_keys m : nat := length (remove_dups (um_keys m)).
End unordered_map.

(** ** SignalEmitter *)

(** Modelled from the spec: class [SignalEmitter] comes from
    [sbpt_generated_includes.hpp], which is not part of the sources.  It is
    the notification channel of the spec: callbacks are registered for a
    signal kind and [emit] runs, synchronously and in registration order,
    those registered for the kind of the signal.  A callback receives the
    signal, may read the container it is connected to (a re-entrant
    lookup) and updates the observer state [Obs] it captured.  Callbacks
    that throw, or that change the container or the subscriptions while
    they run, are not covered. *)
Section SignalEmitter.
Context {Key Value Obs : Type}.

Definition Callback : Type :=
  MapSignal Key Value → unordered_map Key Value → Obs → Obs.

Record Subscription : Type := mkSubscription {
  sub_handle : nat;
  sub_kind : SignalKind;
  sub_callback : Callback
}.

Record SignalEmitter : Type := mkSignalEmitter {
  subscriptions : list Subscription;
  next_handle : nat
}.

Definition no_subscribers : SignalEmitter :=
  {| subscriptions := []; next_handle := 0 |}.

Definition connect (kind : SignalKind) (cb : Callback) (em : SignalEmitter)
    : nat * SignalEmitter :=
  (next_handle em,
   {| subscriptions :=
        subscriptions em ++ [mkSubscription (next_handle em) kind cb];
      next_handle := S (next_handle em) |}).

Definition disconnect (handle : nat) (em : SignalEmitter) : SignalEmitter :=
  {| subscriptions :=
       filter (λ s, sub_handle s ≠ handle) (subscriptions em);
     next_handle := next_handle em |}.

(** Whether a callback is registered for a kind of signal. *)
Definition has_subscriber (kind : SignalKind) (em : SignalEmitter) : bool :=
  bool_decide (filter (λ s, sub_kind s = kind) (subscriptions em) ≠ []).

(** One dispatch pass over the callbacks of the signal's kind. *)
Definition deliver (em : SignalEmitter) (sig : MapSignal Key Value)
    (view : unordered_map Key Value) (obs : Obs) : Obs :=
  foldl (λ o s, sub_callback s sig view o) obs
    (filter (λ s, sub_kind s = kind_of sig) (subscriptions em)).
End SignalEmitter.

Arguments Callback : clear implicits.
Arguments Subscription : clear implicits.
Arguments SignalEmitter : clear implicits.

(** ** The program state *)

(** The two data members of [class ReactiveUnorderedMap]. *)
Record ReactiveUnorderedMap (Key Value Obs : Type) : Type :=
  mkReactiveUnorderedMap {
    signal_emitter : SignalEmitter Key Value Obs;
    map_ : unordered_map Key Value
  }.

Arguments mkReactiveUnorderedMap {Key Value Obs} signal_emitter map_.
Arguments signal_emitter {Key Value Obs} r.
Arguments map_ {Key Value Obs} r.

(** One call of [signal_emitter.emit]: the signal and the container as it
    was when the call was made. *)
Record Emission (Key Value : Type) : Type := mkEmission {
  signal : MapSignal Key Value;
  snapshot : unordered_map Key Value
}.

Arguments mkEmission {Key Value} signal snapshot.
Arguments signal {Key Value} e.
Arguments snapshot {Key Value} e.

(** What a member function can read and write: the object itself, the
    state captured by the connected callbacks, and (a history variable, not
    a field of the program) the calls of [emit] made so far. *)
Record World (Key Value Obs : Type) : Type := mkWorld {
  self : ReactiveUnorderedMap Key Value Obs;
  observers : Obs;
  emitted : list (Emission Key Value)
}.

Arguments mkWorld {Key Value Obs} self observers emitted.
Arguments self {Key Value Obs} w.
Arguments observers {Key Value Obs} w.
Arguments emitted {Key Value Obs} w.

(** How a call ends: it returns, it throws, or its behaviour is undefined
    (an iterator that is not dereferenceable was dereferenced or erased). *)
Inductive outcome (S A : Type) : Type :=
  | Returns (a : A) (s : S)
  | Throws (e : exception) (s : S)
  | Undefined.

Arguments Returns {S A} a s.
Arguments Throws {S A} e s.
Arguments Undefined {S A}.

Definition M (S A : Type) : Type := S → outcome S A.

#[global] Instance M_ret {S} : MRet (M S) := λ A a s, Returns a s.
#[global] Instance M_bind {S} : MBind (M S) := λ A B f c s,
  match c s with
  | Returns a s' => f a s'
  | Throws e s' => Throws e s'
  | Undefined => Undefined
  end.

Definition throw {S A} (e : exception) : M S A := λ s, Throws e s.
Definition undefined {S A} : M S A := λ _, Undefined.

Section ReactiveUnorderedMap.
Context {Key Value Obs : Type} `{EqDecision Key} `{!HashPolicy Key Value}.

#[local] Abbreviation W := (World Key Value Obs).
Implicit Types (w : W) (k key : Key) (v value : Value) (pos : iterator).

(** Access to the private member [map_]. *)
Definition get_map : M W (unordered_map Key Value) :=
  λ w, Returns (map_ (self w)) w.

(** The state once [map_] holds [m]. *)
Definition with_map (m : unordered_map Key Value) w : W :=
  mkWorld (mkReactiveUnorderedMap (signal_emitter (self w)) m)
    (observers w) (emitted w).

Definition put_map (m : unordered_map Key Value) : M W unit :=
  λ w, Returns () (with_map m w).

(** Run a member function of [map_] that returns [r] and leaves [m']. *)
Definition on_map {R} (f : unordered_map Key Value → R * unordered_map Key Value)
    : M W R :=
  m ← get_map; let '(r, m') := f m in put_map m';; mret r.

(** [it->first], [it->second]. *)
Definition deref pos : M W (Key * Value) :=
  m ← get_map;
  match um_deref pos m with
  | Some e => mret e
  | None => undefined
  end.

(** [signal_emitter.emit(sig)]: the callbacks run now, against the
    container as it is now. *)
Definition notified (sig : MapSignal Key Value) w : W :=
  mkWorld (self w)
    (deliver (signal_emitter (self w)) sig (map_ (self w)) (observers w))
    (emitted w ++ [mkEmission sig (map_ (self w))]).

Definition emit (sig : MapSignal Key Value) : M W unit :=
  λ w, Returns () (notified sig w).

(** *** Observers *)
Definition empty : M W bool := m ← get_map; mret (um_empty m).
Definition size : M W nat := m ← get_map; mret (um_size m).
Definition begin : M W iterator := m ← get_map; mret (um_begin m).
Definition end_ : M W iterator := m ← get_map; mret (um_end m).

(** *** Lookup *)
Definition find k : M W iterator := m ← get_map; mret (um_find k m).

Definition contains k : M W bool :=
  m ← get_map; mret (bool_decide (um_find k m ≠ um_end m)).

Definition at_ k : M W Value :=
  m ← get_map;
  match um_at k m with
  | inr v => mret v
  | inl e => throw e
  end.

(** *** Modifiers *)
Definition insert_or_assign key value : M W (iterator * bool) :=
  on_map (um_insert_or_assign key value).

Definition try_emplace {Args : Type} (ctor : Args → Value) key (args : Args)
    : M W (iterator * bool) :=
  on_map (um_try_emplace ctor key args).

(** The argument pack of [emplace] is the key and the mapped value the
    node is built from. *)
Definition emplace key value : M W (iterator * bool) :=
  '(it, inserted) ← on_map (um_emplace key value);
  (if inserted : bool
   then e ← deref it; emit (Inserted e.1 e.2)
   else mret ());;
  mret (it, inserted).

(** [operator[]]; the reference returned is read at once. *)
Definition subscript `{!Inhabited Value} key : M W Value :=
  it ← on_map (um_subscript key);
  e ← deref it;
  mret e.2.

(** Reading a key through a reference. *)
Definition read_key (key_ref : KeyRef Key) : M W Key :=
  match key_ref with
  | caller_key key => mret key
  | stored_key pos => e ← deref pos; mret e.1
  end.

(** Whether a reference is to the key of the node under [it]. *)
Definition refers_to (key_ref : KeyRef Key) (it : iterator) : bool :=
  match key_ref with
  | caller_key _ => false
  | stored_key pos => bool_decide (pos = it)
  end.

(** [emit] of a signal one of whose references refers to a node that has
    been freed.  A callback the signal is delivered to may read through
    the reference, which is undefined behaviour; when no callback is
    registered for the kind, nothing reads it. *)
Definition emit_dangling (sig : MapSignal Key Value) : M W unit :=
  λ w,
    if has_subscriber (kind_of sig) (signal_emitter (self w))
    then Undefined
    else emit sig w.

(** [erase(const Key &key)].  [old_value] is a copy made before the node
    is unlinked; [key] is still the caller's reference when [Erased{key,
    old_value}] is built, after the node is unlinked and freed. *)
Definition erase_ref (key_ref : KeyRef Key) : M W nat :=
  key ← read_key key_ref;
  it ← find key;
  last ← end_;
  if decide (it = last) then mret 0
  else
    e ← deref it;
    let old_value := e.2 in
    num_elts_erased ← on_map (um_erase key);
    (if decide (num_elts_erased = 1)
     then
       if refers_to key_ref it
       then emit_dangling (Erased key old_value)
       else emit (Erased key old_value)
     else mret ());;
    mret num_elts_erased.

(** [erase] called on a key object of the caller's. *)
Definition erase key : M W nat := erase_ref (caller_key key).

Definition erase_pos pos : M W iterator :=
  m ← get_map;
  match um_erase_pos pos m with
  | Some (next, m') => put_map m';; mret next
  | None => undefined
  end.

Definition clear : M W unit := m ← get_map; put_map (um_clear m).

Definition update_if_exists key new_value : M W bool :=
  it ← find key;
  last ← end_;
  if decide (it = last) then mret false
  else
    m ← get_map;
    put_map (um_assign it new_value m);;
    mret true.

(** The state right after the default constructor, with whatever
    callbacks the client connected. *)
Definition fresh (em : SignalEmitter Key Value Obs) (obs : Obs) : W :=
  mkWorld (mkReactiveUnorderedMap em []) obs [].
End ReactiveUnorderedMap.

(** Unfold one layer of the monad and compute. *)
Ltac run_calls :=
  unfold on_map, deref, find, end_, get_map, put_map, emit, throw, undefined;
  unfold mbind, M_bind, mret, M_ret; simpl.

(** ** Sequences of insertions and removals *)

Inductive Op (Key Value : Type) : Type :=
  | OpEmplace (key : Key) (value : Value)
  | OpInsertOrAssign (key : Key) (value : Value)
  | OpErase (key : Key).

Arguments OpEmplace {Key Value} key value.
Arguments OpInsertOrAssign {Key Value} key value.
Arguments OpErase {Key Value} key.

Section run_ops.
Context {Key Value Obs : Type} `{EqDecision Key} `{!HashPolicy Key Value}.

Definition run_op (op : Op Key Value) : M (World Key Value Obs) unit :=
  match op with
  | OpEmplace key value => emplace key value;; mret ()
  | OpInsertOrAssign key value => insert_or_assign key value;; mret ()
  | OpErase key => erase key;; mret ()
  end.

Fixpoint run_ops (ops : list (Op Key Value)) : M (World Key Value Obs) unit :=
  match ops with
  | [] => mret ()
  | op :: ops' => run_op op;; run_ops ops'
  end.
End run_ops.

(** ** A client *)

(** An observer that re-enters the container from its callback: on
    [Inserted] and [Erased] it looks the key of the signal up and appends
    what it finds to its log. *)
Definition probe : Callback nat nat (list (option nat)) :=
  λ sig view log,
    match sig with
    | Inserted key _ | Erased key _ => log ++ [lookup_value key view]
    | _ => log
    end.

Definition probing_emitter : SignalEmitter nat nat (list (option nat)) :=
  (connect KErased probe (connect KInserted probe no_subscribers).2).2.

(** A container holding [1 ↦ 10] and [2 ↦ 20], watched by [probe]. *)
Definition two_entries : World nat nat (list (option nat)) :=
  mkWorld (mkReactiveUnorderedMap probing_emitter [(2, 20); (1, 10)]) [] [].

(** ** reserve *)

(** What [std::unordered_map::reserve] may do.  It can fail to allocate
    the buckets asked for and throw, in which case the container is left
    as it was; otherwise it can rehash, which keeps the nodes and fixes no
    order for them. *)
Class RehashPolicy (Key Value : Type) : Type := {
  rehash_throws : nat → list (Key * Value) → option exception;
  rehash : nat → list (Key * Value) → list (Key * Value);
  rehash_perm n m : rehash n m ≡ₚ m
}.

(** The policy that always has room and never moves a node. *)
Definition keep_order_policy (Key Value : Type) : RehashPolicy Key Value :=
  {| rehash_throws n m := None;
     rehash n m := m;
     rehash_perm n m := reflexivity _ |}.

(** A policy with room for 64 elements: beyond that the allocation of the
    buckets fails.  Otherwise it reverses the order of the nodes. *)
Definition small_table_policy (Key Value : Type) : RehashPolicy Key Value :=
  {| rehash_throws n m := if decide (64 < n) then Some bad_alloc else None;
     rehash n m := reverse m;
     rehash_perm n m := reverse_Permutation m |}.

Section reserve.
Context {Key Value Obs : Type} `{!RehashPolicy Key Value}.

Definition um_reserve (n : nat) (m : unordered_map Key Value)
    : exception + unordered_map Key Value :=
  match rehash_throws n m with
  | Some e => inl e
  | None => inr (rehash n m)
  end.

Definition reserve (n : nat) : M (World Key Value Obs) unit :=
  m ← get_map;
  match um_reserve n m with
  | inr m' => put_map m'
  | inl e => throw e
  end.
End reserve.

(** ** Sessions: any calls of the public member functions, in any order *)

Inductive Call (Key Value : Type) : Type :=
  | CallEmpty
  | CallSize
  | CallReserve (n : nat)
  | CallBegin
  | CallEnd
  | CallFind (key : Key)
  | CallContains (key : Key)
  | CallAt (key : Key)
  | CallInsertOrAssign (key : Key) (value : Value)
  | CallTryEmplace (key : Key) (value : Value)
  | CallEmplace (key : Key) (value : Value)
  | CallSubscript (key : Key)
  | CallErase (key : Key)
  | CallEraseKeyOf (pos : iterator)
  | CallErasePos (pos : iterator)
  | CallClear
  | CallUpdateIfExists (key : Key) (new_value : Value).

Arguments CallEmpty {Key Value}.
Arguments CallSize {Key Value}.
Arguments CallReserve {Key Value} n.
Arguments CallBegin {Key Value}.
Arguments CallEnd {Key Value}.
Arguments CallFind {Key Value} key.
Arguments CallContains {Key Value} key.
Arguments CallAt {Key Value} key.
Arguments CallInsertOrAssign {Key Value} key value.
Arguments CallTryEmplace {Key Value} key value.
Arguments CallEmplace {Key Value} key value.
Arguments CallSubscript {Key Value} key.
Arguments CallErase {Key Value} key.
Arguments CallEraseKeyOf {Key Value} pos.
Arguments CallErasePos {Key Value} pos.
Arguments CallClear {Key Value}.
Arguments CallUpdateIfExists {Key Value} key new_value.

Section sessions.
Context {Key Value Obs : Type} `{EqDecision Key} `{!HashPolicy Key Value}.
Context `{!RehashPolicy Key Value} `{!Inhabited Value}.

(** One call, its result dropped.  [try_emplace] is given the mapped value
    itself as its argument pack.  [CallErase] passes [erase] a key of the
    caller's, [CallEraseKeyOf] the key of the node under an iterator. *)
Definition run_call (c : Call Key Value) : M (World Key Value Obs) unit :=
  match c with
  | CallEmpty => empty;; mret ()
  | CallSize => size;; mret ()
  | CallReserve n => reserve n
  | CallBegin => begin;; mret ()
  | CallEnd => end_;; mret ()
  | CallFind key => find key;; mret ()
  | CallContains key => contains key;; mret ()
  | CallAt key => at_ key;; mret ()
  | CallInsertOrAssign key value => insert_or_assign key value;; mret ()
  | CallTryEmplace key value => try_emplace id key value;; mret ()
  | CallEmplace key value => emplace key value;; mret ()
  | CallSubscript key => subscript key;; mret ()
  | CallErase key => erase key;; mret ()
  | CallEraseKeyOf pos => erase_ref (stored_key pos);; mret ()
  | CallErasePos pos => erase_pos pos;; mret ()
  | CallClear => clear
  | CallUpdateIfExists key new_value =>
      update_if_exists key new_value;; mret ()
  end.

(** A session stops at the first call that throws. *)
Fixpoint run_session (cs : list (Call Key Value))
    : M (World Key Value Obs) unit :=
  match cs with
  | [] => mret ()
  | c :: cs' => run_call c;; run_session cs'
  end.
End sessions.

(** The state a call leaves, whether it returned or threw; a call whose
    behaviour is undefined leaves none. *)
Definition ends_in {S A : Type} (o : outcome S A) (s' : S) : Prop :=
  match o with
  | Returns _ s | Throws _ s => s = s'
  | Undefined => False
  end.

(** What a callback may rely on when it is handed a signal together with
    the container: the key of [Inserted] maps to the value of the signal,
    the key of [Erased] is gone.  No other signal is acceptable. *)
Definition emission_ok {Key Value : Type} `{EqDecision Key}
    (e : Emission Key Value) : Prop :=
  match signal e with
  | Inserted key value => lookup_value key (snapshot e) = Some value
  | Erased key _ => lookup_value key (snapshot e) = None
  | _ => False
  end.

(** The member functions that call [emit]. *)
Definition may_emit {Key Value : Type} (c : Call Key Value) : bool :=
  match c with
  | CallEmplace _ _ | CallErase _ | CallEraseKeyOf _ => true
  | _ => false
  end.

(** How a state [w'] reached from [w] relates to it: the keys are unique,
    the subscriptions are the same, and the emissions made on the way, at
    most [n] of them, were all acceptable. *)
Definition reached {Key Value Obs : Type} `{EqDecision Key} (n : nat)
    (w w' : World Key Value Obs) : Prop :=
  unique_keys (map_ (self w')) ∧
  signal_emitter (self w') = signal_emitter (self w) ∧
  ∃ new,
    emitted w' = emitted w ++ new ∧
    length new ≤ n ∧
    Forall emission_ok new.

(** A session on [two_entries] that ends in a throw: 9 is not a key. *)
Definition demo_session : list (Call nat nat) :=
  [CallEmplace 3 30; CallReserve 8; CallSubscript 4; CallErasePos 0;
   CallUpdateIfExists 1 11; CallErase 2; CallAt 9].

(** * Facts about the container *)

Section unordered_map_facts.
Context {Key Value : Type} `{EqDecision Key} `{!HashPolicy Key Value}.

Implicit Types (m : unordered_map Key Value) (k : Key) (v : Value).

Lemma um_find_end k m : um_find k m = um_end m ↔ k ∉ um_keys m.
Proof.
  unfold um_find, um_end, um_keys.
  destruct (list_find _ m) as [[i e]|] eqn:Hf.
  - apply list_find_Some in Hf as (Hi & He & _). split.
    + intros ->. apply lookup_lt_Some in Hi. lia.
    + intros Hk. destruct Hk. rewrite <- He.
      apply list_elem_of_fmap_2. by eapply list_elem_of_lookup_2.
  - apply list_find_None in Hf. split; [|done].
    intros _ (e & -> & He)%list_elem_of_fmap.
    rewrite Forall_forall in Hf. by apply (Hf e).
Qed.

Lemma um_find_deref k m :
  um_find k m ≠ um_end m → ∃ v, um_deref (um_find k m) m = Some (k, v).
Proof.
  unfold um_find, um_end, um_deref.
  destruct (list_find _ m) as [[i [k' v]]|] eqn:Hf; [|done].
  apply list_find_Some in Hf as (Hi & He & _). simpl in He. subst k'.
  eauto.
Qed.

Lemma um_deref_end m : um_deref (um_end m) m = None.
Proof. unfold um_deref, um_end. by apply lookup_ge_None. Qed.

Lemma lookup_value_None k m : lookup_value k m = None ↔ k ∉ um_keys m.
Proof.
  rewrite <- um_find_end. unfold lookup_value. split.
  - intros Hn. destruct (decide (um_find k m = um_end m)) as [|Hne]; [done|].
    destruct (um_find_deref k m Hne) as [v Hv]. by rewrite Hv in Hn.
  - intros ->. by rewrite um_deref_end.
Qed.

Lemma lookup_value_in_keys k v m :
  lookup_value k m = Some v → k ∈ um_keys m.
Proof.
  intros Hl. destruct (decide (k ∈ um_keys m)) as [|Hn]; [done|].
  apply lookup_value_None in Hn. congruence.
Qed.

Lemma lookup_value_deref k v m :
  lookup_value k m = Some v ↔ um_deref (um_find k m) m = Some (k, v).
Proof.
  unfold lookup_value. split; [|by intros ->].
  intros Hl. destruct (decide (um_find k m = um_end m)) as [He|Hne].
  - by rewrite He, um_deref_end in Hl.
  - destruct (um_find_deref k m Hne) as [v' Hv]. rewrite Hv in Hl |- *.
    by simplify_eq/=.
Qed.

Lemma lookup_value_Some k v m : lookup_value k m = Some v → (k, v) ∈ m.
Proof.
  unfold lookup_value. intros Hl.
  destruct (decide (um_find k m = um_end m)) as [He|Hne].
  - by rewrite He, um_deref_end in Hl.
  - destruct (um_find_deref k m Hne) as [v' Hv]. rewrite Hv in Hl.
    simplify_eq/=. by eapply list_elem_of_lookup_2.
Qed.

Lemma unique_keys_agree k v1 v2 m :
  unique_keys m → (k, v1) ∈ m → (k, v2) ∈ m → v1 = v2.
Proof.
  unfold unique_keys, um_keys.
  intros Hnd (i & Hi)%list_elem_of_lookup (j & Hj)%list_elem_of_lookup.
  assert (i = j) as ->.
  { apply (NoDup_lookup _ _ _ k Hnd); rewrite list_lookup_fmap.
    - by rewrite Hi.
    - by rewrite Hj. }
  congruence.
Qed.

Lemma lookup_value_elem k v m :
  unique_keys m → (k, v) ∈ m → lookup_value k m = Some v.
Proof.
  intros Hnd Hin. destruct (lookup_value k m) as [v'|] eqn:Hl.
  - apply lookup_value_Some in Hl. f_equal. by eapply unique_keys_agree.
  - apply lookup_value_None in Hl. destruct Hl.
    by apply (list_elem_of_fmap_2 fst) in Hin.
Qed.

Lemma link_node_keys k v m : um_keys (link_node k v m) ≡ₚ k :: um_keys m.
Proof. unfold um_keys. by rewrite link_node_perm. Qed.

Lemma link_node_length k v m : length (link_node k v m) = S (length m).
Proof. by rewrite link_node_perm. Qed.

(** The node found for a key that has just been linked is the new one. *)
Lemma link_node_deref k v m :
  k ∉ um_keys m →
  um_find k (link_node k v m) ≠ um_end (link_node k v m) ∧
  um_deref (um_find k (link_node k v m)) (link_node k v m) = Some (k, v).
Proof.
  intros Hk.
  assert (um_find k (link_node k v m) ≠ um_end (link_node k v m)) as Hne.
  { rewrite um_find_end, link_node_keys. intros Hn. apply Hn. left. }
  split; [done|].
  destruct (um_find_deref _ _ Hne) as [v' Hv]. rewrite Hv.
  apply list_elem_of_lookup_2 in Hv. rewrite link_node_perm in Hv.
  apply elem_of_cons in Hv as [?|Hin]; [congruence|].
  destruct Hk. by apply (list_elem_of_fmap_2 fst) in Hin.
Qed.

Lemma link_node_lookup k v m :
  k ∉ um_keys m → lookup_value k (link_node k v m) = Some v.
Proof.
  intros Hk. unfold lookup_value.
  by rewrite (proj2 (link_node_deref k v m Hk)).
Qed.

Lemma unique_keys_nil : unique_keys (@nil (Key * Value)).
Proof. constructor. Qed.

Lemma unique_keys_link_node k v m :
  k ∉ um_keys m → unique_keys m → unique_keys (link_node k v m).
Proof.
  unfold unique_keys. intros Hk Hnd. rewrite link_node_keys.
  by apply NoDup_cons.
Qed.

Lemma unique_keys_delete i m : unique_keys m → unique_keys (delete i m).
Proof.
  unfold unique_keys, um_keys. rewrite list_fmap_delete.
  rewrite !delete_take_drop. intros Hnd.
  rewrite <- (take_drop i (m.*1)) in Hnd.
  apply NoDup_app in Hnd as (H1 & H2 & H3).
  apply NoDup_app. split_and!; [done| |].
  - intros x Hx Hd. apply (H2 x Hx).
    rewrite <- (take_drop 1 (drop i m.*1)), drop_drop, Nat.add_comm.
    apply elem_of_app. by right.
  - rewrite <- (take_drop 1 (drop i m.*1)), drop_drop, Nat.add_comm in H3.
    by apply NoDup_app in H3 as (_ & _ & ?).
Qed.

Lemma um_assign_keys pos v m : um_keys (um_assign pos v m) = um_keys m.
Proof.
  unfold um_assign, um_keys. destruct (m !! pos) as [e|] eqn:He; [|done].
  rewrite list_fmap_insert. apply list_insert_id.
  by rewrite list_lookup_fmap, He.
Qed.

(** Once the node of a key is unlinked the key is gone. *)
Lemma delete_find_keys k m :
  unique_keys m → k ∉ um_keys (delete (um_find k m) m).
Proof.
  intros Hnd. destruct (decide (um_find k m = um_end m)) as [He|Hne].
  - rewrite He. unfold um_end.
    rewrite delete_take_drop, take_ge, drop_ge, app_nil_r by lia.
    by apply um_find_end.
  - destruct (um_find_deref k m Hne) as [v Hv]. unfold um_deref in Hv.
    unfold unique_keys, um_keys in *. rewrite list_fmap_delete.
    assert (m.*1 !! um_find k m = Some k) as Hk
      by (by rewrite list_lookup_fmap, Hv).
    rewrite <- (take_drop_middle _ _ _ Hk) in Hnd.
    rewrite delete_take_drop.
    apply NoDup_app in Hnd as (_ & H2 & H3).
    apply NoDup_cons in H3 as (H3 & _).
    intros [Hin|Hin]%elem_of_app; [|done].
    apply (H2 k Hin). left.
Qed.

Lemma size_distinct_keys m : unique_keys m → um_size m = distinct_keys m.
Proof.
  unfold unique_keys, distinct_keys, um_size. intros Hnd.
  assert (remove_dups (um_keys m) ≡ₚ um_keys m) as Hp.
  { apply NoDup_Permutation; [apply NoDup_remove_dups|done|].
    intros x. apply elem_of_remove_dups. }
  rewrite Hp. unfold um_keys. by rewrite length_fmap.
Qed.

(** [find] reads nothing but the keys. *)
Lemma um_find_by_keys k m :
  um_find k m =
    from_option fst (length (um_keys m)) (list_find (λ x, x = k) (um_keys m)).
Proof.
  unfold um_find, um_keys, um_end. rewrite list_find_fmap, length_fmap.
  unfold compose. by destruct (list_find _ m) as [[i e]|].
Qed.

Lemma um_find_same_keys k m m' :
  um_keys m = um_keys m' → um_find k m = um_find k m'.
Proof. intros Hk. by rewrite !um_find_by_keys, Hk. Qed.

Lemma um_assign_length pos v m : length (um_assign pos v m) = length m.
Proof.
  unfold um_assign. destruct (m !! pos); [|done]. apply length_insert.
Qed.

(** After an assignment through the iterator of a key, the key maps to
    the value assigned. *)
Lemma um_assign_deref k v m :
  k ∈ um_keys m →
  um_deref (um_find k (um_assign (um_find k m) v m))
    (um_assign (um_find k m) v m) = Some (k, v).
Proof.
  intros Hk.
  rewrite (um_find_same_keys k _ m) by apply um_assign_keys.
  assert (um_find k m ≠ um_end m) as Hne by (by rewrite um_find_end; auto).
  destruct (um_find_deref _ _ Hne) as [old Hold].
  unfold um_deref, um_assign in *. rewrite Hold. simpl.
  apply list_lookup_insert_eq. by eapply lookup_lt_Some.
Qed.
End unordered_map_facts.

(** * Facts about the member functions *)

Section member_function_facts.
Context {Key Value Obs : Type} `{EqDecision Key} `{!HashPolicy Key Value}.

#[local] Abbreviation W := (World Key Value Obs).
Implicit Types (w : W) (m : unordered_map Key Value) (k : Key) (v : Value).

Lemma with_map_id w : with_map (map_ (self w)) w = w.
Proof. by destruct w as [[em m] obs log]. Qed.

Lemma emplace_absent w k v :
  k ∉ um_keys (map_ (self w)) →
  emplace k v w =
    Returns (um_find k (link_node k v (map_ (self w))), true)
      (notified (Inserted k v) (with_map (link_node k v (map_ (self w))) w)).
Proof.
  intros Hk. unfold emplace, um_emplace. run_calls.
  rewrite decide_True by (by apply um_find_end). run_calls.
  by rewrite (proj2 (link_node_deref k v _ Hk)).
Qed.

Lemma emplace_present w k v :
  k ∈ um_keys (map_ (self w)) →
  emplace k v w = Returns (um_find k (map_ (self w)), false) w.
Proof.
  intros Hk. unfold emplace, um_emplace. run_calls.
  rewrite decide_False by (by rewrite um_find_end; auto). run_calls.
  by rewrite with_map_id.
Qed.

Lemma erase_absent w k :
  k ∉ um_keys (map_ (self w)) → erase k w = Returns 0 w.
Proof.
  intros Hk. unfold erase, erase_ref, read_key. run_calls.
  by rewrite decide_True by (by apply um_find_end).
Qed.

Lemma erase_present w k :
  k ∈ um_keys (map_ (self w)) →
  ∃ old_value,
    um_deref (um_find k (map_ (self w))) (map_ (self w)) = Some (k, old_value) ∧
    erase k w =
      Returns 1
        (notified (Erased k old_value)
           (with_map (delete (um_find k (map_ (self w))) (map_ (self w))) w)).
Proof.
  intros Hk.
  assert (um_find k (map_ (self w)) ≠ um_end (map_ (self w))) as Hne
    by (by rewrite um_find_end; auto).
  destruct (um_find_deref _ _ Hne) as [old Hold]. exists old. split; [done|].
  unfold erase, erase_ref, read_key, um_erase. run_calls.
  rewrite decide_False by done. rewrite Hold. run_calls.
  by rewrite decide_False by done.
Qed.

Lemma insert_or_assign_absent w k v :
  k ∉ um_keys (map_ (self w)) →
  insert_or_assign k v w =
    Returns (um_find k (link_node k v (map_ (self w))), true)
      (with_map (link_node k v (map_ (self w))) w).
Proof.
  intros Hk. unfold insert_or_assign, um_insert_or_assign. run_calls.
  by rewrite decide_True by (by apply um_find_end).
Qed.

Lemma insert_or_assign_present w k v :
  k ∈ um_keys (map_ (self w)) →
  insert_or_assign k v w =
    Returns (um_find k (map_ (self w)), false)
      (with_map (um_assign (um_find k (map_ (self w))) v (map_ (self w))) w).
Proof.
  intros Hk. unfold insert_or_assign, um_insert_or_assign. run_calls.
  by rewrite decide_False by (by rewrite um_find_end; auto).
Qed.

Lemma try_emplace_absent {Args} (ctor : Args → Value) w k (args : Args) :
  k ∉ um_keys (map_ (self w)) →
  try_emplace ctor k args w =
    Returns (um_find k (link_node k (ctor args) (map_ (self w))), true)
      (with_map (link_node k (ctor args) (map_ (self w))) w).
Proof.
  intros Hk. unfold try_emplace, um_try_emplace. run_calls.
  by rewrite decide_True by (by apply um_find_end).
Qed.

Lemma try_emplace_present {Args} (ctor : Args → Value) w k (args : Args) :
  k ∈ um_keys (map_ (self w)) →
  try_emplace ctor k args w = Returns (um_find k (map_ (self w)), false) w.
Proof.
  intros Hk. unfold try_emplace, um_try_emplace. run_calls.
  rewrite decide_False by (by rewrite um_find_end; auto).
  by rewrite with_map_id.
Qed.

Lemma subscript_absent `{!Inhabited Value} w k :
  k ∉ um_keys (map_ (self w)) →
  subscript k w =
    Returns inhabitant (with_map (link_node k inhabitant (map_ (self w))) w).
Proof.
  intros Hk. unfold subscript, um_subscript. run_calls.
  rewrite decide_True by (by apply um_find_end). run_calls.
  by rewrite (proj2 (link_node_deref k inhabitant _ Hk)).
Qed.

Lemma subscript_present `{!Inhabited Value} w k :
  k ∈ um_keys (map_ (self w)) →
  ∃ v, um_deref (um_find k (map_ (self w))) (map_ (self w)) = Some (k, v) ∧
       subscript k w = Returns v w.
Proof.
  intros Hk.
  assert (um_find k (map_ (self w)) ≠ um_end (map_ (self w))) as Hne
    by (by rewrite um_find_end; auto).
  destruct (um_find_deref _ _ Hne) as [v Hv]. exists v. split; [done|].
  unfold subscript, um_subscript. run_calls.
  rewrite decide_False by done. run_calls. rewrite Hv.
  by rewrite with_map_id.
Qed.

Lemma erase_pos_valid w pos :
  pos < um_size (map_ (self w)) →
  erase_pos pos w = Returns pos (with_map (delete pos (map_ (self w))) w).
Proof.
  intros [e He]%lookup_lt_is_Some. unfold erase_pos, um_erase_pos. run_calls.
  by rewrite He.
Qed.

Lemma erase_pos_invalid w pos :
  um_size (map_ (self w)) ≤ pos → erase_pos pos w = Undefined.
Proof.
  intros Hn%lookup_ge_None. unfold erase_pos, um_erase_pos. run_calls.
  by rewrite Hn.
Qed.

Lemma clear_eq w : clear w = Returns () (with_map [] w).
Proof. done. Qed.

Lemma at_absent w k :
  k ∉ um_keys (map_ (self w)) → at_ k w = Throws out_of_range w.
Proof.
  intros Hk%um_find_end. unfold at_, um_at. run_calls.
  by rewrite Hk, um_deref_end.
Qed.

Lemma at_present w k :
  k ∈ um_keys (map_ (self w)) →
  ∃ v, um_deref (um_find k (map_ (self w))) (map_ (self w)) = Some (k, v) ∧
       at_ k w = Returns v w.
Proof.
  intros Hk.
  assert (um_find k (map_ (self w)) ≠ um_end (map_ (self w))) as Hne
    by (by rewrite um_find_end; auto).
  destruct (um_find_deref _ _ Hne) as [v Hv]. exists v. split; [done|].
  unfold at_, um_at. run_calls. by rewrite Hv.
Qed.

Lemma update_if_exists_absent w k v :
  k ∉ um_keys (map_ (self w)) → update_if_exists k v w = Returns false w.
Proof.
  intros Hk. unfold update_if_exists. run_calls.
  by rewrite decide_True by (by apply um_find_end).
Qed.

Lemma update_if_exists_present w k v :
  k ∈ um_keys (map_ (self w)) →
  update_if_exists k v w =
    Returns true
      (with_map (um_assign (um_find k (map_ (self w))) v (map_ (self w))) w).
Proof.
  intros Hk. unfold update_if_exists. run_calls.
  by rewrite decide_False by (by rewrite um_find_end; auto).
Qed.

(** Every operation of a sequence returns, and keeps the keys unique. *)
Lemma run_op_returns (op : Op Key Value) w :
  unique_keys (map_ (self w)) →
  ∃ w', run_op op w = Returns () w' ∧ unique_keys (map_ (self w')).
Proof.
  intros Hu. unfold run_op, mbind, M_bind.
  destruct op as [k v|k v|k];
    destruct (decide (k ∈ um_keys (map_ (self w)))) as [Hk|Hk].
  - rewrite emplace_present by done. eauto.
  - rewrite emplace_absent by done. eexists. split; [done|]. simpl.
    by apply unique_keys_link_node.
  - rewrite insert_or_assign_present by done. eexists. split; [done|]. simpl.
    unfold unique_keys. by rewrite um_assign_keys.
  - rewrite insert_or_assign_absent by done. eexists. split; [done|]. simpl.
    by apply unique_keys_link_node.
  - destruct (erase_present w k Hk) as (old & _ & ->).
    eexists. split; [done|]. simpl. by apply unique_keys_delete.
  - rewrite erase_absent by done. eauto.
Qed.

Lemma run_ops_returns (ops : list (Op Key Value)) w :
  unique_keys (map_ (self w)) →
  ∃ w', run_ops ops w = Returns () w' ∧ unique_keys (map_ (self w')).
Proof.
  revert w. induction ops as [|op ops IH]; intros w Hu; simpl.
  - by exists w.
  - destruct (run_op_returns op w Hu) as (w1 & Hrun & Hu1).
    unfold mbind, M_bind. rewrite Hrun. by apply IH.
Qed.
End member_function_facts.

(** * The behaviour of the container, claim by claim *)

Section claims.
Context {Key Value Obs : Type} `{EqDecision Key} `{!HashPolicy Key Value}.

Implicit Types (w : World Key Value Obs) (k : Key) (v : Value).

(** C1. [emplace] of a key that is not in the container links one node for
    it (the nodes afterwards are the old ones and [(k, v)]), returns
    [inserted = true] with an iterator to the new node, and calls [emit]
    exactly once, with [Inserted k v]; afterwards [find k] gives that
    iterator and the value under it is [v].  [emplace] of a key that is in
    the container returns [inserted = false] and leaves the whole state as
    it was: the stored value stays and nothing is emitted. *)
Theorem emplace_inserts_and_emits_once w k v :
  (lookup_value k (map_ (self w)) = None →
   ∃ it w',
     emplace k v w = Returns (it, true) w' ∧
     map_ (self w') ≡ₚ (k, v) :: map_ (self w) ∧
     emitted w' = emitted w ++ [mkEmission (Inserted k v) (map_ (self w'))] ∧
     find k w' = Returns it w' ∧
     um_deref it (map_ (self w')) = Some (k, v) ∧
     lookup_value k (map_ (self w')) = Some v) ∧
  (∀ v0, lookup_value k (map_ (self w)) = Some v0 →
   ∃ it w',
     emplace k v w = Returns (it, false) w' ∧
     w' = w ∧
     lookup_value k (map_ (self w')) = Some v0 ∧
     emitted w' = emitted w ∧
     observers w' = observers w).
Proof.
  split.
  - intros Hk%lookup_value_None.
    eexists _, _. split; [by apply emplace_absent|]. simpl.
    split_and!; [apply link_node_perm|done|done|..].
    + by apply link_node_deref.
    + by apply link_node_lookup.
  - intros v0 Hv0. pose proof (lookup_value_in_keys _ _ _ Hv0) as Hk.
    eexists _, w. by rewrite emplace_present.
Qed.

(** X16. [erase(key)] called on a key object of the caller's.  For a key
    that is in the container it unlinks its node
    (the nodes before are the remaining ones and [(k, old)]; the key is
    gone), returns 1, and calls [emit] exactly once, with [Erased k old]
    where [old] is the value the key mapped to just before; [erase(key)]
    of a key that is not there returns 0 and leaves the whole state as it
    was, so nothing is emitted. *)
Theorem erase_removes_and_emits_once w k :
  unique_keys (map_ (self w)) →
  (∀ old, lookup_value k (map_ (self w)) = Some old →
   ∃ w',
     erase k w = Returns 1 w' ∧
     map_ (self w) ≡ₚ (k, old) :: map_ (self w') ∧
     lookup_value k (map_ (self w')) = None ∧
     contains k w' = Returns false w' ∧
     emitted w' = emitted w ++ [mkEmission (Erased k old) (map_ (self w'))]) ∧
  (lookup_value k (map_ (self w)) = None →
   ∃ w',
     erase k w = Returns 0 w' ∧
     w' = w ∧
     emitted w' = emitted w ∧
     observers w' = observers w).
Proof.
  intros Hu. split.
  - intros old Hold. pose proof (lookup_value_in_keys _ _ _ Hold) as Hk.
    destruct (erase_present w k Hk) as (old' & Hd & ->).
    apply lookup_value_deref in Hold. rewrite Hold in Hd. simplify_eq.
    eexists. split; [done|]. simpl.
    pose proof (delete_find_keys k _ Hu) as Hgone.
    split_and!; [by apply delete_Permutation|by apply lookup_value_None| |done].
    unfold contains. run_calls. f_equal.
    apply bool_decide_eq_false. intros Hne. by apply Hne, um_find_end.
  - intros Hk%lookup_value_None. exists w. by rewrite erase_absent.
Qed.

(** C3, as the code has it. [clear] unlinks every node, so that [size()]
    is 0 afterwards, and it makes no call of [emit]: no [Cleared] signal,
    nor any other, whether the container held nodes or not; the observers
    are not run. *)
Theorem clear_empties_and_emits_nothing w :
  ∃ w',
    clear w = Returns () w' ∧
    map_ (self w') = [] ∧
    size w' = Returns 0 w' ∧
    emitted w' = emitted w ∧
    observers w' = observers w.
Proof. eexists. by rewrite clear_eq. Qed.

(** C4. Starting from the container the default constructor builds, every
    sequence of [emplace], [insert_or_assign] and [erase(key)] calls runs to
    the end, and then [size()] is the number of distinct keys among the
    nodes of the container. *)
Theorem size_counts_distinct_keys (ops : list (Op Key Value))
    (em : SignalEmitter Key Value Obs) (obs : Obs) :
  ∃ w',
    run_ops ops (fresh em obs) = Returns () w' ∧
    size w' = Returns (distinct_keys (map_ (self w'))) w'.
Proof.
  destruct (run_ops_returns ops (fresh em obs)) as (w' & Hrun & Hu).
  { apply unique_keys_nil. }
  exists w'. split; [done|]. unfold size. run_calls.
  by rewrite size_distinct_keys.
Qed.

(** X17. The call of [emit] comes after the change of [map_]: the
    container the callbacks of an [Inserted k v] emission read is the one
    [emplace] leaves, in which [k] maps to [v], and, [erase] being called
    on a key object of the caller's, the container the callbacks of an
    [Erased k old] emission read is the one [erase] leaves, in which [k]
    is absent.  The observers end in the state those callbacks
    compute from that container. *)
Theorem emission_reads_the_changed_container w k v :
  unique_keys (map_ (self w)) →
  (lookup_value k (map_ (self w)) = None →
   ∃ it w' e,
     emplace k v w = Returns (it, true) w' ∧
     emitted w' = emitted w ++ [e] ∧
     signal e = Inserted k v ∧
     snapshot e = map_ (self w') ∧
     lookup_value k (snapshot e) = Some v ∧
     observers w' =
       deliver (signal_emitter (self w)) (signal e) (snapshot e) (observers w)) ∧
  (∀ old, lookup_value k (map_ (self w)) = Some old →
   ∃ w' e,
     erase k w = Returns 1 w' ∧
     emitted w' = emitted w ++ [e] ∧
     signal e = Erased k old ∧
     snapshot e = map_ (self w') ∧
     lookup_value k (snapshot e) = None ∧
     observers w' =
       deliver (signal_emitter (self w)) (signal e) (snapshot e) (observers w)).
Proof.
  intros Hu. split.
  - intros Hk%lookup_value_None.
    eexists _, _, _. split; [by apply emplace_absent|]. simpl.
    split_and!; try done. by apply link_node_lookup.
  - intros old Hold. pose proof (lookup_value_in_keys _ _ _ Hold) as Hk.
    destruct (erase_present w k Hk) as (old' & Hd & ->).
    apply lookup_value_deref in Hold. rewrite Hold in Hd. simplify_eq.
    eexists _, _. split; [done|]. simpl. split_and!; try done.
    by apply lookup_value_None, delete_find_keys.
Qed.

(** C6, as the code has it. [insert_or_assign] links a node for a key that
    is not in the container and assigns to the mapped value of a key that
    is; either way the key maps to the value afterwards, the flag returned
    is true exactly when the key was new, and no call of [emit] is made:
    not for a new key either. *)
Theorem insert_or_assign_upserts_and_emits_nothing w k v :
  ∃ it inserted w',
    insert_or_assign k v w = Returns (it, inserted) w' ∧
    (inserted = true ↔ lookup_value k (map_ (self w)) = None) ∧
    (inserted = true → map_ (self w') ≡ₚ (k, v) :: map_ (self w)) ∧
    (inserted = false → um_keys (map_ (self w')) = um_keys (map_ (self w))) ∧
    um_deref it (map_ (self w')) = Some (k, v) ∧
    lookup_value k (map_ (self w')) = Some v ∧
    emitted w' = emitted w ∧
    observers w' = observers w.
Proof.
  destruct (decide (k ∈ um_keys (map_ (self w)))) as [Hk|Hk].
  - eexists _, _, _. split; [by apply insert_or_assign_present|]. simpl.
    pose proof (um_assign_deref k v _ Hk) as Hd.
    split_and!; try done.
    + split; [done|]. by intros ?%lookup_value_None.
    + intros _. apply um_assign_keys.
    + by rewrite (um_find_same_keys k _ _ (um_assign_keys _ v _)) in Hd.
    + by apply lookup_value_deref.
  - eexists _, _, _. split; [by apply insert_or_assign_absent|]. simpl.
    split_and!; try done.
    + split; [|done]. intros _. by apply lookup_value_None.
    + intros _. apply link_node_perm.
    + by apply link_node_deref.
    + by apply link_node_lookup.
Qed.

(** C7. [at] throws [std::out_of_range], leaving the state alone, exactly
    when the key is the key of no node; when it is the key of a node, [at]
    returns the mapped value of a node with that key, and with unique keys
    it returns [v] for every node [(k, v)] of the container.  The other
    lookups do not fail for a missing key: [find] returns [end()] exactly
    when the key is the key of no node, and [contains] returns false
    exactly then.  The modifiers that look for an existing key do not
    throw for a missing one either: [erase(key)] returns 0 and
    [update_if_exists] returns false. *)
Theorem at_throws_exactly_when_absent w k :
  (at_ k w = Throws out_of_range w ↔ k ∉ um_keys (map_ (self w))) ∧
  (k ∈ um_keys (map_ (self w)) →
     ∃ v, at_ k w = Returns v w ∧ (k, v) ∈ map_ (self w)) ∧
  (unique_keys (map_ (self w)) →
     ∀ v, (k, v) ∈ map_ (self w) → at_ k w = Returns v w) ∧
  (∃ it,
     find k w = Returns it w ∧
     (it = um_end (map_ (self w)) ↔ k ∉ um_keys (map_ (self w)))) ∧
  (∃ b,
     contains k w = Returns b w ∧
     (b = false ↔ k ∉ um_keys (map_ (self w)))) ∧
  (k ∉ um_keys (map_ (self w)) →
     erase k w = Returns 0 w ∧
     ∀ v, update_if_exists k v w = Returns false w).
Proof.
  split_and!.
  - split; [|by apply at_absent].
    intros Hat Hk. destruct (at_present w k Hk) as (v & _ & Hr). congruence.
  - intros Hk. destruct (at_present w k Hk) as (v & Hd & Hr).
    exists v. split; [done|]. by eapply list_elem_of_lookup_2.
  - intros Hu v Hin.
    assert (k ∈ um_keys (map_ (self w))) as Hk
      by (by apply (list_elem_of_fmap_2 fst) in Hin).
    destruct (at_present w k Hk) as (v' & Hd & ->).
    apply list_elem_of_lookup_2 in Hd.
    by rewrite (unique_keys_agree k v v' _ Hu Hin Hd).
  - eexists. split; [done|]. apply um_find_end.
  - eexists. split; [done|].
    rewrite bool_decide_eq_false, <- um_find_end.
    split; [|by auto]. intros Hnn.
    by destruct (decide (um_find k (map_ (self w)) = um_end (map_ (self w)))).
  - intros Hk. split; [by apply erase_absent|].
    intros v. by apply update_if_exists_absent.
Qed.

(** C8. [try_emplace] links a node for the key, built from the arguments,
    exactly when the key is absent, and returns that as its flag; for a key
    that is present the state stays as it was.  It makes no call of [emit]
    in either case.  Neither do the other insertions that are not
    [emplace] ([insert_or_assign], [operator[]]), while [emplace] of an
    absent key does. *)
Theorem try_emplace_emits_nothing {Args : Type} (ctor : Args → Value)
    w k (args : Args) :
  (∃ it inserted w',
     try_emplace ctor k args w = Returns (it, inserted) w' ∧
     (inserted = true ↔ lookup_value k (map_ (self w)) = None) ∧
     (inserted = true →
        map_ (self w') ≡ₚ (k, ctor args) :: map_ (self w) ∧
        lookup_value k (map_ (self w')) = Some (ctor args)) ∧
     (inserted = false → w' = w) ∧
     emitted w' = emitted w ∧
     observers w' = observers w) ∧
  (∀ v, ∃ r w', insert_or_assign k v w = Returns r w' ∧ emitted w' = emitted w) ∧
  (∀ (dflt : Inhabited Value),
     ∃ r w', subscript k w = Returns r w' ∧ emitted w' = emitted w) ∧
  (∀ v, lookup_value k (map_ (self w)) = None →
     ∃ r w', emplace k v w = Returns r w' ∧
       emitted w' = emitted w ++ [mkEmission (Inserted k v) (map_ (self w'))]).
Proof.
  split_and!.
  - destruct (decide (k ∈ um_keys (map_ (self w)))) as [Hk|Hk].
    + eexists _, _, _. split; [by apply try_emplace_present|].
      split_and!; try done. split; [done|]. by intros ?%lookup_value_None.
    + eexists _, _, _. split; [by apply try_emplace_absent|]. simpl.
      split_and!; try done.
      * split; [|done]. intros _. by apply lookup_value_None.
      * intros _. split; [apply link_node_perm|by apply link_node_lookup].
  - intros v. destruct (decide (k ∈ um_keys (map_ (self w)))) as [Hk|Hk].
    + rewrite insert_or_assign_present by done. by eexists _, _.
    + rewrite insert_or_assign_absent by done. by eexists _, _.
  - intros dflt. destruct (decide (k ∈ um_keys (map_ (self w)))) as [Hk|Hk].
    + destruct (subscript_present w k Hk) as (v & _ & ->). by eexists _, _.
    + rewrite subscript_absent by done. by eexists _, _.
  - intros v Hk%lookup_value_None. rewrite emplace_absent by done.
    by eexists _, _.
Qed.

(** C9. [operator[]] on a key that is not in the container links a node
    holding the value-initialised mapped value, so that [size()] grows by
    one, and returns that value; on a key that is in the container it
    returns the value the key maps to and leaves the state as it was.  It
    makes no call of [emit] in either case. *)
Theorem subscript_inserts_default_and_emits_nothing `{!Inhabited Value} w k :
  (lookup_value k (map_ (self w)) = None →
   ∃ w',
     subscript k w = Returns inhabitant w' ∧
     map_ (self w') ≡ₚ (k, inhabitant) :: map_ (self w) ∧
     size w' = Returns (S (um_size (map_ (self w)))) w' ∧
     lookup_value k (map_ (self w')) = Some inhabitant ∧
     emitted w' = emitted w ∧
     observers w' = observers w) ∧
  (∀ v0, lookup_value k (map_ (self w)) = Some v0 →
   ∃ w',
     subscript k w = Returns v0 w' ∧
     w' = w ∧
     emitted w' = emitted w ∧
     observers w' = observers w).
Proof.
  split.
  - intros Hk%lookup_value_None. rewrite subscript_absent by done.
    eexists. split; [done|]. simpl.
    split_and!; [apply link_node_perm| |by apply link_node_lookup|done..].
    unfold size. run_calls. unfold um_size. by rewrite link_node_length.
  - intros v0 Hv0.
    destruct (subscript_present w k (lookup_value_in_keys _ _ _ Hv0))
      as (v & Hd & ->).
    apply lookup_value_deref in Hv0. exists w. split_and!; congruence.
Qed.

(** C10. [erase(pos)] on an iterator under which there is a node unlinks
    that node and no other (the rest keep their order), and returns the
    iterator to what followed it: the node that came next, or [end()] when
    [pos] was the last.  It makes no call of [emit], whereas [erase(key)]
    for the key of that node emits [Erased]. *)
Theorem erase_pos_emits_nothing w pos (e : Key * Value) :
  um_deref pos (map_ (self w)) = Some e →
  (∃ next w',
     erase_pos pos w = Returns next w' ∧
     map_ (self w) =
       take pos (map_ (self w')) ++ e :: drop pos (map_ (self w')) ∧
     size w' = Returns (pred (um_size (map_ (self w)))) w' ∧
     um_deref next (map_ (self w')) = um_deref (S pos) (map_ (self w)) ∧
     (next = um_end (map_ (self w')) ↔ S pos = um_end (map_ (self w))) ∧
     emitted w' = emitted w ∧
     observers w' = observers w) ∧
  (∃ n w' old,
     erase e.1 w = Returns n w' ∧
     emitted w' = emitted w ++ [mkEmission (Erased e.1 old) (map_ (self w'))]).
Proof.
  unfold um_deref. intros He. pose proof (lookup_lt_Some _ _ _ He) as Hlt.
  split.
  - rewrite erase_pos_valid by done. eexists _, _. split; [done|]. simpl.
    split_and!; try done.
    + rewrite delete_take_drop.
      rewrite take_app_le, take_take, Nat.min_id by (rewrite length_take; lia).
      rewrite drop_app_ge, length_take, drop_drop by (rewrite length_take; lia).
      replace (S pos + (pos - pos `min` length (map_ (self w)))) with (S pos)
        by lia.
      by rewrite take_drop_middle.
    + unfold size. run_calls. unfold um_size.
      rewrite length_delete by eauto. f_equal. lia.
    + unfold um_deref. by rewrite list_lookup_delete_ge.
    + unfold um_end. rewrite length_delete by eauto. lia.
  - assert (e.1 ∈ um_keys (map_ (self w))) as Hk.
    { apply list_elem_of_fmap_2. by eapply list_elem_of_lookup_2. }
    destruct (erase_present w e.1 Hk) as (old & _ & ->).
    by eexists _, _, _.
Qed.
End claims.

(** * The claims on a concrete container *)

(** From here on new nodes are linked in front. *)
#[local] Existing Instance front_policy.

Lemma two_entries_unique_keys : unique_keys (map_ (self two_entries)).
Proof. unfold unique_keys. simpl. compute_done. Qed.

(** C1 on [two_entries]: 3 is new, 1 is there already. *)
Lemma emplace_inserts_and_emits_once_witness :
  (∃ it w',
     emplace 3 30 two_entries = Returns (it, true) w' ∧
     emitted w' = [mkEmission (Inserted 3 30) (map_ (self w'))] ∧
     lookup_value 3 (map_ (self w')) = Some 30) ∧
  (∃ it,
     emplace 1 99 two_entries = Returns (it, false) two_entries ∧
     lookup_value 1 (map_ (self two_entries)) = Some 10).
Proof.
  destruct (emplace_inserts_and_emits_once two_entries 3 30) as [Hnew _].
  destruct (emplace_inserts_and_emits_once two_entries 1 99) as [_ Hold].
  destruct (Hnew eq_refl) as (it & w' & Hrun & _ & Hem & _ & _ & Hl).
  destruct (Hold 10 eq_refl) as (it' & w'' & Hrun' & -> & Hl' & _).
  split; [by exists it, w'|by exists it'].
Defined.

(** X16 on [two_entries]: erasing 1, which maps to 10. *)
Lemma erase_removes_and_emits_once_witness :
  unique_keys (map_ (self two_entries)) ∧
  (∃ w',
     erase 1 two_entries = Returns 1 w' ∧
     lookup_value 1 (map_ (self w')) = None ∧
     emitted w' = [mkEmission (Erased 1 10) (map_ (self w'))]) ∧
  (∃ w', erase 7 two_entries = Returns 0 w' ∧ w' = two_entries).
Proof.
  pose proof two_entries_unique_keys as Hu. split; [done|].
  destruct (erase_removes_and_emits_once two_entries 1 Hu) as [Hin _].
  destruct (erase_removes_and_emits_once two_entries 7 Hu) as [_ Hout].
  destruct (Hin 10 eq_refl) as (w' & Hrun & _ & Hgone & _ & Hem).
  destruct (Hout eq_refl) as (w'' & Hrun' & Hsame & _).
  split; [by exists w'|by exists w''].
Defined.

(** C3 as the spec has it fails on [two_entries]: [clear] leaves the
    history of emissions as it was; no [Cleared] is appended. *)
Lemma clear_emits_cleared_counterexample :
  ¬ ∃ w',
      clear two_entries = Returns () w' ∧
      um_size (map_ (self w')) = 0 ∧
      ∃ view, emitted w' = emitted two_entries ++ [mkEmission Cleared view].
Proof.
  intros (w' & Hrun & _ & view & Hem). rewrite clear_eq in Hrun.
  by simplify_eq/=.
Qed.

Lemma deliver_probe_inserted k v view log :
  deliver (signal_emitter (self two_entries)) (Inserted k v) view log =
    log ++ [lookup_value k view].
Proof. reflexivity. Qed.

Lemma deliver_probe_erased k v view log :
  deliver (signal_emitter (self two_entries)) (Erased k v) view log =
    log ++ [lookup_value k view].
Proof. reflexivity. Qed.

(** C4 on a sequence that inserts 1 twice and removes 2: one key is left. *)
Lemma size_counts_distinct_keys_witness :
  ∃ w',
    run_ops [OpEmplace 1 10; OpInsertOrAssign 2 20; OpEmplace 1 11; OpErase 2]
      (fresh probing_emitter []) = Returns () w' ∧
    size w' = Returns 1 w'.
Proof.
  destruct (size_counts_distinct_keys
              [OpEmplace 1 10; OpInsertOrAssign 2 20; OpEmplace 1 11; OpErase 2]
              probing_emitter [])
    as (w' & Hrun & Hsize).
  exists w'. split; [done|].
  rewrite Hsize. vm_compute in Hrun. by simplify_eq.
Defined.

(** X17 on [two_entries], whose callbacks look the key up: the lookup made
    during the [Inserted] emission finds the new value, the one made
    during the [Erased] emission finds nothing. *)
Lemma emission_reads_the_changed_container_witness :
  unique_keys (map_ (self two_entries)) ∧
  (∃ it w',
     emplace 3 30 two_entries = Returns (it, true) w' ∧
     observers w' = [Some 30]) ∧
  (∃ w', erase 1 two_entries = Returns 1 w' ∧ observers w' = [None]).
Proof.
  pose proof two_entries_unique_keys as Hu. split; [done|].
  destruct (emission_reads_the_changed_container two_entries 3 30 Hu)
    as [Hins _].
  destruct (emission_reads_the_changed_container two_entries 1 0 Hu)
    as [_ Hers].
  destruct (Hins eq_refl) as (it & w' & e & Hrun & _ & Hsig & _ & Hl & Hobs).
  destruct (Hers 10 eq_refl) as (w'' & e' & Hrun' & _ & Hsig' & _ & Hl' & Hobs').
  split.
  - exists it, w'. split; [done|].
    by rewrite Hobs, Hsig, deliver_probe_inserted, Hl.
  - exists w''. split; [done|].
    by rewrite Hobs', Hsig', deliver_probe_erased, Hl'.
Defined.

(** C6 as the spec has it fails on [two_entries]: [insert_or_assign] of
    the new key 3 reports an insertion and emits no [Inserted]. *)
Lemma insert_or_assign_emits_inserted_counterexample :
  ¬ ∃ it w',
      insert_or_assign 3 30 two_entries = Returns (it, true) w' ∧
      ∃ view,
        emitted w' = emitted two_entries ++ [mkEmission (Inserted 3 30) view].
Proof.
  intros (it & w' & Hrun & view & Hem).
  rewrite insert_or_assign_absent in Hrun by compute_done.
  by simplify_eq/=.
Qed.

(** C6 as the code has it, on [two_entries]: 3 is new, 1 is overwritten. *)
Lemma insert_or_assign_upserts_and_emits_nothing_witness :
  (∃ it w',
     insert_or_assign 3 30 two_entries = Returns (it, true) w' ∧
     lookup_value 3 (map_ (self w')) = Some 30 ∧
     emitted w' = []) ∧
  (∃ it w',
     insert_or_assign 1 11 two_entries = Returns (it, false) w' ∧
     lookup_value 1 (map_ (self w')) = Some 11 ∧
     emitted w' = []).
Proof.
  destruct (insert_or_assign_upserts_and_emits_nothing two_entries 3 30)
    as (it & [] & w' & Hrun & [_ Hnew] & _ & _ & _ & Hl & Hem & _);
    [|by specialize (Hnew eq_refl)].
  destruct (insert_or_assign_upserts_and_emits_nothing two_entries 1 11)
    as (it' & [] & w'' & Hrun' & [Hnew' _] & _ & _ & _ & Hl' & Hem' & _);
    [by specialize (Hnew' eq_refl)|].
  split; [by exists it, w'|by exists it', w''].
Defined.

(** C7 on [two_entries]: 7 is absent, 2 maps to 20. *)
Lemma at_throws_exactly_when_absent_witness :
  (7 ∉ um_keys (map_ (self two_entries))) ∧
  ((2, 20) ∈ map_ (self two_entries)) ∧
  at_ 7 two_entries = Throws out_of_range two_entries ∧
  at_ 2 two_entries = Returns 20 two_entries ∧
  erase 7 two_entries = Returns 0 two_entries.
Proof.
  assert (7 ∉ um_keys (map_ (self two_entries))) as Hout by compute_done.
  assert ((2, 20) ∈ map_ (self two_entries)) as Hin by left.
  destruct (at_throws_exactly_when_absent two_entries 7)
    as ([_ Hthrow] & _ & _ & _ & _ & Hquiet).
  destruct (at_throws_exactly_when_absent two_entries 2)
    as (_ & _ & Hret & _).
  split_and!; [done|done|by apply Hthrow| |by apply Hquiet].
  by apply Hret; [apply two_entries_unique_keys|].
Defined.

(** C8 on [two_entries], the mapped value built by doubling: 3 is new, 1
    is there already. *)
Lemma try_emplace_emits_nothing_witness :
  (∃ it w',
     try_emplace (λ n, 2 * n) 3 15 two_entries = Returns (it, true) w' ∧
     lookup_value 3 (map_ (self w')) = Some 30 ∧
     emitted w' = []) ∧
  (∃ it,
     try_emplace (λ n, 2 * n) 1 15 two_entries = Returns (it, false) two_entries).
Proof.
  destruct (try_emplace_emits_nothing (λ n, 2 * n) two_entries 3 15)
    as [(it & [] & w' & Hrun & [_ Hnew] & Hins & _ & Hem & _) _];
    [|by specialize (Hnew eq_refl)].
  destruct (try_emplace_emits_nothing (λ n, 2 * n) two_entries 1 15)
    as [(it' & [] & w'' & Hrun' & [Hnew' _] & _ & Hsame & _) _];
    [by specialize (Hnew' eq_refl)|].
  destruct (Hins eq_refl) as [_ Hl]. rewrite (Hsame eq_refl) in Hrun'.
  split; [by exists it, w'|by exists it'].
Defined.

(** C9 on [two_entries]: [m[3]] makes a node holding 0, [m[2]] reads 20. *)
Lemma subscript_inserts_default_and_emits_nothing_witness :
  (∃ w',
     subscript 3 two_entries = Returns 0 w' ∧
     size w' = Returns 3 w' ∧
     emitted w' = []) ∧
  (∃ w', subscript 2 two_entries = Returns 20 w' ∧ w' = two_entries).
Proof.
  destruct (subscript_inserts_default_and_emits_nothing two_entries 3)
    as [Hnew _].
  destruct (subscript_inserts_default_and_emits_nothing two_entries 2)
    as [_ Hold].
  destruct (Hnew eq_refl) as (w' & Hrun & _ & Hsize & _ & Hem & _).
  destruct (Hold 20 eq_refl) as (w'' & Hrun' & Hsame & _).
  split; [by exists w'|by exists w''].
Defined.

(** C10 on [two_entries]: erasing at [begin()], where the node of 2 is. *)
Lemma erase_pos_emits_nothing_witness :
  um_deref 0 (map_ (self two_entries)) = Some (2, 20) ∧
  ∃ next w',
    erase_pos 0 two_entries = Returns next w' ∧
    um_deref next (map_ (self w')) = Some (1, 10) ∧
    emitted w' = [].
Proof.
  split; [done|].
  destruct (erase_pos_emits_nothing two_entries 0 (2, 20) eq_refl)
    as [(next & w' & Hrun & _ & _ & Hnext & _ & Hem & _) _].
  by exists next, w'.
Defined.

(** The scenario of the spec: on an empty container, [emplace("a", 1)]
    inserts and emits [Inserted{"a", 1}]; [emplace("a", 2)] does not insert
    and emits nothing, and ["a"] still maps to 1; [erase("a")] emits
    [Erased{"a", 1}] and leaves [size() == 0]. *)
Example scenario :
  (r1 ← emplace "a" 1;
   r2 ← emplace "a" 2;
   a ← at_ "a";
   n ← erase "a";
   s ← size;
   mret (r1.2, r2.2, a, n, s)) (fresh no_subscribers ()) =
  Returns (true, false, 1, 1, 0)
    (mkWorld (mkReactiveUnorderedMap no_subscribers []) ()
       [mkEmission (Inserted "a" 1) [("a", 1)];
        mkEmission (Erased "a" 1) []]).
Proof. reflexivity. Qed.

(** * Further facts about the container *)

Section unordered_map_frame.
Context {Key Value : Type} `{EqDecision Key} `{!HashPolicy Key Value}.

Implicit Types (m : unordered_map Key Value) (k : Key) (v : Value).

(** With unique keys, what a key maps to does not depend on the order of
    the nodes. *)
Lemma lookup_value_perm k m m' :
  unique_keys m → m ≡ₚ m' → lookup_value k m = lookup_value k m'.
Proof.
  intros Hu Hp.
  assert (unique_keys m') as Hu'.
  { unfold unique_keys, um_keys in *. by rewrite <- Hp. }
  destruct (lookup_value k m) as [v|] eqn:Hl; symmetry.
  - apply lookup_value_elem; [done|]. rewrite <- Hp.
    by apply lookup_value_Some.
  - apply lookup_value_None. apply lookup_value_None in Hl.
    unfold um_keys in *. by rewrite <- Hp.
Qed.

Lemma link_node_lookup_ne k k' v m :
  unique_keys m → k ∉ um_keys m → k' ≠ k →
  lookup_value k' (link_node k v m) = lookup_value k' m.
Proof.
  intros Hu Hk Hne.
  pose proof (unique_keys_link_node k v m Hk Hu) as Hu'.
  destruct (lookup_value k' m) as [v'|] eqn:Hl.
  - apply lookup_value_elem; [done|]. rewrite link_node_perm.
    right. by apply lookup_value_Some.
  - apply lookup_value_None. apply lookup_value_None in Hl.
    rewrite link_node_keys. by intros [?|?]%elem_of_cons.
Qed.

Lemma delete_find_lookup_ne k k' m :
  unique_keys m → k' ≠ k →
  lookup_value k' (delete (um_find k m) m) = lookup_value k' m.
Proof.
  intros Hu Hne.
  destruct (decide (um_find k m = um_end m)) as [He|Hn].
  { rewrite He. unfold um_end.
    by rewrite delete_take_drop, take_ge, drop_ge, app_nil_r by lia. }
  destruct (um_find_deref k m Hn) as [old Hold]. unfold um_deref in Hold.
  pose proof (delete_Permutation _ _ _ Hold) as Hp.
  destruct (lookup_value k' m) as [v'|] eqn:Hl.
  - apply lookup_value_elem; [by apply unique_keys_delete|].
    apply lookup_value_Some in Hl. rewrite Hp in Hl.
    apply elem_of_cons in Hl as [?|?]; [congruence|done].
  - apply lookup_value_None. apply lookup_value_None in Hl.
    intros Hin. apply Hl. unfold um_keys in *.
    rewrite list_fmap_delete in Hin. by eapply list_elem_of_delete_inv.
Qed.

Lemma um_assign_lookup_ne k k' v m :
  k' ≠ k →
  lookup_value k' (um_assign (um_find k m) v m) = lookup_value k' m.
Proof.
  intros Hne. unfold lookup_value, um_deref.
  rewrite (um_find_same_keys k' _ m) by apply um_assign_keys.
  unfold um_assign. destruct (m !! um_find k m) as [e|] eqn:He; [|done].
  destruct (decide (um_find k m = um_find k' m)) as [Heq|Hdiff].
  - assert (um_find k m ≠ um_end m) as Hn.
    { apply lookup_lt_Some in He. unfold um_end. lia. }
    destruct (um_find_deref k m Hn) as [v1 Hv1].
    assert (um_find k' m ≠ um_end m) as Hn' by congruence.
    destruct (um_find_deref k' m Hn') as [v2 Hv2].
    unfold um_deref in *. rewrite Heq in Hv1. congruence.
  - by rewrite list_lookup_insert_ne.
Qed.

(** With unique keys, [find] of the key under an iterator is the iterator. *)
Lemma um_find_deref_inv pos (e : Key * Value) m :
  unique_keys m → um_deref pos m = Some e → um_find e.1 m = pos.
Proof.
  unfold um_deref. intros Hu He.
  assert (e.1 ∈ um_keys m) as Hk.
  { apply list_elem_of_fmap_2. by eapply list_elem_of_lookup_2. }
  assert (um_find e.1 m ≠ um_end m) as Hn by (by rewrite um_find_end; auto).
  destruct (um_find_deref _ _ Hn) as [v Hv]. unfold um_deref in Hv.
  apply (NoDup_lookup _ _ _ e.1 Hu); unfold um_keys;
    rewrite list_lookup_fmap.
  - by rewrite Hv.
  - by rewrite He.
Qed.
End unordered_map_frame.

(** * [erase] through a reference into the container *)

Section erase_ref_facts.
Context {Key Value Obs : Type} `{EqDecision Key} `{!HashPolicy Key Value}.

Implicit Types (w : World Key Value Obs) (k : Key) (v : Value).

Lemma erase_ref_stored_invalid w pos :
  um_deref pos (map_ (self w)) = None →
  erase_ref (stored_key pos) w = Undefined.
Proof.
  intros He. unfold erase_ref, read_key. run_calls. by rewrite He.
Qed.

(** Given the key of one of its own nodes, [erase] unlinks that node and
    then emits a signal whose key refers to it. *)
Lemma erase_ref_stored w pos (e : Key * Value) :
  unique_keys (map_ (self w)) →
  um_deref pos (map_ (self w)) = Some e →
  erase_ref (stored_key pos) w =
    if has_subscriber KErased (signal_emitter (self w))
    then Undefined
    else Returns 1
           (notified (Erased e.1 e.2) (with_map (delete pos (map_ (self w))) w)).
Proof.
  intros Hu He. pose proof (um_find_deref_inv _ _ _ Hu He) as Hf.
  assert (pos ≠ um_end (map_ (self w))) as Hne.
  { intros ->. by rewrite um_deref_end in He. }
  unfold erase_ref, read_key, um_erase. run_calls.
  rewrite He. run_calls. rewrite Hf, decide_False by done.
  rewrite He. run_calls. rewrite Hf, decide_False by done. run_calls.
  rewrite bool_decide_eq_true_2 by done.
  unfold emit_dangling. simpl.
  by destruct (has_subscriber KErased (signal_emitter (self w))).
Qed.

(** C2, where the code departs from it.  Let [erase] be handed the key of
    a node of the container itself (the caller wrote [m.erase(it->first)])
    while a callback is registered for [Erased].  [old_value] is copied
    before the node is unlinked but [key] is not: the signal built after
    the node is freed refers to the freed key, and delivering it is
    undefined behaviour.  Handed a copy of the same key, the call returns 1
    and emits [Erased] with that key and the old value. *)
Theorem erase_of_stored_key_is_undefined w pos (e : Key * Value) :
  unique_keys (map_ (self w)) →
  um_deref pos (map_ (self w)) = Some e →
  has_subscriber KErased (signal_emitter (self w)) = true →
  erase_ref (stored_key pos) w = Undefined ∧
  ∃ w',
    erase_ref (caller_key e.1) w = Returns 1 w' ∧
    emitted w' =
      emitted w ++ [mkEmission (Erased e.1 e.2) (map_ (self w'))].
Proof.
  intros Hu He Hsub. split.
  - by rewrite (erase_ref_stored w pos e), Hsub.
  - assert (e.1 ∈ um_keys (map_ (self w))) as Hk.
    { apply list_elem_of_fmap_2. by eapply list_elem_of_lookup_2. }
    destruct (erase_present w e.1 Hk) as (old & Hd & Hrun).
    rewrite (um_find_deref_inv pos e _ Hu He), He in Hd.
    assert (old = e.2) as -> by (destruct e; by simplify_eq/=).
    eexists. split; [exact Hrun|done].
Qed.
End erase_ref_facts.

(** * Further properties of the member functions *)

Section further_properties.
Context {Key Value Obs : Type} `{EqDecision Key} `{!HashPolicy Key Value}.

Implicit Types (w : World Key Value Obs) (k : Key) (v : Value).

(** X1. [update_if_exists] on a key that is in the container returns true
    and assigns in place: the key maps to the new value, the keys and
    their order stay, every other key maps to what it did, and no signal
    is emitted.  On a key that is not there it returns false and leaves the
    state as it was: it never inserts. *)
Theorem update_if_exists_assigns_in_place w k v :
  (∀ old, lookup_value k (map_ (self w)) = Some old →
   ∃ w',
     update_if_exists k v w = Returns true w' ∧
     lookup_value k (map_ (self w')) = Some v ∧
     um_keys (map_ (self w')) = um_keys (map_ (self w)) ∧
     (∀ k', k' ≠ k →
        lookup_value k' (map_ (self w')) = lookup_value k' (map_ (self w))) ∧
     emitted w' = emitted w ∧
     observers w' = observers w) ∧
  (lookup_value k (map_ (self w)) = None →
   update_if_exists k v w = Returns false w).
Proof.
  split.
  - intros old Hk%lookup_value_in_keys.
    rewrite update_if_exists_present by done. eexists. split; [done|]. simpl.
    split_and!; try done.
    + apply lookup_value_deref. by apply um_assign_deref.
    + apply um_assign_keys.
    + intros k' Hne. by apply um_assign_lookup_ne.
  - intros Hk%lookup_value_None. by apply update_if_exists_absent.
Qed.

(** X2. [emplace] touches no other key: in a container with unique keys,
    every key other than the one emplaced maps afterwards to what it mapped
    to before, the size grows by one exactly when the flag returned is
    true, and the keys are still unique. *)
Theorem emplace_keeps_other_keys w k v k' :
  unique_keys (map_ (self w)) →
  k' ≠ k →
  ∃ it inserted w',
    emplace k v w = Returns (it, inserted) w' ∧
    lookup_value k' (map_ (self w')) = lookup_value k' (map_ (self w)) ∧
    um_size (map_ (self w')) =
      um_size (map_ (self w)) + (if inserted then 1 else 0) ∧
    unique_keys (map_ (self w')).
Proof.
  intros Hu Hne. destruct (decide (k ∈ um_keys (map_ (self w)))) as [Hk|Hk].
  - rewrite emplace_present by done. eexists _, _, _. split; [done|].
    split_and!; try done; unfold um_size; lia.
  - rewrite emplace_absent by done. eexists _, _, _. split; [done|]. simpl.
    split_and!.
    + by apply link_node_lookup_ne.
    + unfold um_size. rewrite link_node_length. lia.
    + by apply unique_keys_link_node.
Qed.

(** X3. [erase(key)] touches no other key: in a container with unique
    keys, every key other than the one erased maps afterwards to what it
    mapped to before, the size drops by the count returned, and the keys
    are still unique. *)
Theorem erase_keeps_other_keys w k k' :
  unique_keys (map_ (self w)) →
  k' ≠ k →
  ∃ n w',
    erase k w = Returns n w' ∧
    lookup_value k' (map_ (self w')) = lookup_value k' (map_ (self w)) ∧
    um_size (map_ (self w')) + n = um_size (map_ (self w)) ∧
    unique_keys (map_ (self w')).
Proof.
  intros Hu Hne. destruct (decide (k ∈ um_keys (map_ (self w)))) as [Hk|Hk].
  - destruct (erase_present w k Hk) as (old & Hd & ->).
    eexists _, _. split; [done|]. simpl. split_and!.
    + by apply delete_find_lookup_ne.
    + unfold um_size, um_deref in *. rewrite length_delete by eauto.
      apply lookup_lt_Some in Hd. lia.
    + by apply unique_keys_delete.
  - rewrite erase_absent by done. eexists _, _. split; [done|].
    split_and!; try done; unfold um_size; lia.
Qed.

(** X4. [emplace] of a new key followed by [erase] of that key gives the
    container its old nodes back (in some order), with the key absent
    again; [erase] returns 1, and the two calls emit [Inserted k v] and then
    [Erased k v], the latter carrying the value just emplaced. *)
Theorem emplace_then_erase_restores w k v :
  lookup_value k (map_ (self w)) = None →
  ∃ w' m1,
    (emplace k v;; erase k) w = Returns 1 w' ∧
    map_ (self w') ≡ₚ map_ (self w) ∧
    lookup_value k (map_ (self w')) = None ∧
    m1 ≡ₚ (k, v) :: map_ (self w) ∧
    emitted w' =
      emitted w ++ [mkEmission (Inserted k v) m1;
                    mkEmission (Erased k v) (map_ (self w'))].
Proof.
  intros Hk%lookup_value_None. unfold mbind, M_bind.
  rewrite emplace_absent by done.
  set (w1 := notified _ _).
  assert (k ∈ um_keys (map_ (self w1))) as Hk1.
  { simpl. rewrite link_node_keys. left. }
  destruct (erase_present w1 k Hk1) as (old & Hd & ->).
  simpl in Hd. pose proof (proj2 (link_node_deref k v _ Hk)) as Hd'.
  assert (old = v) as -> by congruence. clear Hd'.
  eexists _, _. split; [done|]. simpl. unfold um_deref in Hd.
  assert (delete (um_find k (link_node k v (map_ (self w))))
            (link_node k v (map_ (self w))) ≡ₚ map_ (self w)) as Hp.
  { apply (Permutation_cons_inv (a := (k, v))).
    by rewrite <- (delete_Permutation _ _ _ Hd), link_node_perm. }
  split_and!; [done| |apply link_node_perm|by rewrite <- app_assoc].
  apply lookup_value_None. unfold um_keys in *. by rewrite Hp.
Qed.

(** X5. A second [erase] of the same key finds nothing: in a container
    with unique keys, whatever the first call did, the second returns 0
    and changes nothing, so at most one [Erased] is emitted for the key. *)
Theorem erase_twice_returns_zero w k :
  unique_keys (map_ (self w)) →
  ∃ n w', erase k w = Returns n w' ∧ erase k w' = Returns 0 w'.
Proof.
  intros Hu. destruct (decide (k ∈ um_keys (map_ (self w)))) as [Hk|Hk].
  - destruct (erase_present w k Hk) as (old & _ & ->).
    eexists _, _. split; [done|]. apply erase_absent. simpl.
    by apply delete_find_keys.
  - rewrite erase_absent by done. eexists _, _. split; [done|].
    by apply erase_absent.
Qed.

(** X6. The first [emplace] of a key wins: a second [emplace] of the same
    key, with any value, returns the same iterator with [inserted = false]
    and changes nothing; when the first call inserted, [at] still returns
    the first value. *)
Theorem emplace_twice_keeps_first w k v1 v2 :
  ∃ it inserted w',
    emplace k v1 w = Returns (it, inserted) w' ∧
    emplace k v2 w' = Returns (it, false) w' ∧
    (inserted = true → at_ k w' = Returns v1 w').
Proof.
  destruct (decide (k ∈ um_keys (map_ (self w)))) as [Hk|Hk].
  - rewrite emplace_present by done. eexists _, _, _. split; [done|].
    split; [by apply emplace_present|done].
  - rewrite emplace_absent by done. set (w1 := notified _ _).
    assert (k ∈ um_keys (map_ (self w1))) as Hk1.
    { simpl. rewrite link_node_keys. left. }
    eexists _, _, _. split; [done|]. split; [by rewrite emplace_present|].
    intros _. destruct (at_present w1 k Hk1) as (v' & Hd & ->).
    simpl in Hd. pose proof (proj2 (link_node_deref k v1 _ Hk)) as Hd'.
    f_equal. congruence.
Qed.

(** X7. What [insert_or_assign] stores can be read back: afterwards [at]
    returns the value and [contains] returns true, whether the key was new
    or not.  In a container with unique keys the keys stay unique and every
    other key maps to what it mapped to before. *)
Theorem insert_or_assign_then_at w k v :
  ∃ r w',
    insert_or_assign k v w = Returns r w' ∧
    at_ k w' = Returns v w' ∧
    contains k w' = Returns true w' ∧
    (unique_keys (map_ (self w)) →
       unique_keys (map_ (self w')) ∧
       ∀ k', k' ≠ k →
         lookup_value k' (map_ (self w')) = lookup_value k' (map_ (self w))).
Proof.
  assert (∀ w1 : World Key Value Obs,
            um_deref (um_find k (map_ (self w1))) (map_ (self w1)) = Some (k, v) →
            at_ k w1 = Returns v w1 ∧ contains k w1 = Returns true w1) as Hread.
  { intros w1 Hd. split.
    - unfold at_, um_at. run_calls. by rewrite Hd.
    - unfold contains. run_calls. f_equal. apply bool_decide_eq_true.
      intros He. by rewrite He, um_deref_end in Hd. }
  destruct (decide (k ∈ um_keys (map_ (self w)))) as [Hk|Hk].
  - rewrite insert_or_assign_present by done. eexists _, _. split; [done|].
    destruct (Hread (with_map (um_assign (um_find k (map_ (self w))) v
                                 (map_ (self w))) w)) as [Hat Hc].
    { simpl. by apply um_assign_deref. }
    split_and!; [done..|]. simpl. intros Hu. split.
    + unfold unique_keys. by rewrite um_assign_keys.
    + intros k' Hne. by apply um_assign_lookup_ne.
  - rewrite insert_or_assign_absent by done. eexists _, _. split; [done|].
    destruct (Hread (with_map (link_node k v (map_ (self w))) w)) as [Hat Hc].
    { simpl. by apply link_node_deref. }
    split_and!; [done..|]. simpl. intros Hu. split.
    + by apply unique_keys_link_node.
    + intros k' Hne. by apply link_node_lookup_ne.
Qed.

(** X8. [update_if_exists] is [insert_or_assign] without the insertion:
    when it returns true, [insert_or_assign] with the same arguments would
    have reported no insertion and left the very same state; when it
    returns false it leaves the state alone, where [insert_or_assign]
    would have inserted. *)
Theorem update_if_exists_vs_insert_or_assign w k v :
  ∃ updated it inserted w1 w2,
    update_if_exists k v w = Returns updated w1 ∧
    insert_or_assign k v w = Returns (it, inserted) w2 ∧
    inserted = negb updated ∧
    (updated = true → w1 = w2) ∧
    (updated = false →
       w1 = w ∧ map_ (self w2) ≡ₚ (k, v) :: map_ (self w)).
Proof.
  destruct (decide (k ∈ um_keys (map_ (self w)))) as [Hk|Hk].
  - rewrite update_if_exists_present, insert_or_assign_present by done.
    by eexists _, _, _, _, _.
  - rewrite update_if_exists_absent, insert_or_assign_absent by done.
    eexists _, _, _, _, _. split_and!; try done.
    intros _. split; [done|]. apply link_node_perm.
Qed.

(** X9. [try_emplace] and [emplace] differ in the signal only: given the
    arguments the mapped value is built from, they return the same
    iterator and flag and leave the same container.  When nothing is
    inserted both leave the whole state as it was; when a node is inserted,
    [try_emplace] emits nothing and [emplace] emits one [Inserted]. *)
Theorem try_emplace_vs_emplace {Args : Type} (ctor : Args → Value)
    w k (args : Args) :
  ∃ it inserted w1 w2,
    try_emplace ctor k args w = Returns (it, inserted) w1 ∧
    emplace k (ctor args) w = Returns (it, inserted) w2 ∧
    map_ (self w1) = map_ (self w2) ∧
    (inserted = false → w1 = w ∧ w2 = w) ∧
    (inserted = true →
       emitted w1 = emitted w ∧
       emitted w2 =
         emitted w ++ [mkEmission (Inserted k (ctor args)) (map_ (self w2))]).
Proof.
  destruct (decide (k ∈ um_keys (map_ (self w)))) as [Hk|Hk].
  - rewrite try_emplace_present, emplace_present by done.
    by eexists _, _, _, _.
  - rewrite try_emplace_absent, emplace_absent by done.
    by eexists _, _, _, _.
Qed.

(** X10. [erase(find(key))] against [erase(key)].  For a key that is in
    the container the two leave the same container, but only [erase(key)]
    emits [Erased].  For a key that is not there [find] returns [end()],
    and erasing at [end()] is undefined behaviour, whereas [erase(key)]
    returns 0. *)
Theorem erase_at_find_vs_erase_key w k :
  (∀ old, lookup_value k (map_ (self w)) = Some old →
   ∃ it next w1 w2,
     find k w = Returns it w ∧
     erase_pos it w = Returns next w1 ∧
     erase k w = Returns 1 w2 ∧
     map_ (self w1) = map_ (self w2) ∧
     emitted w1 = emitted w ∧
     emitted w2 = emitted w ++ [mkEmission (Erased k old) (map_ (self w2))]) ∧
  (lookup_value k (map_ (self w)) = None →
   ∃ it,
     find k w = Returns it w ∧
     erase_pos it w = Undefined ∧
     erase k w = Returns 0 w).
Proof.
  split.
  - intros old Hold. pose proof (lookup_value_in_keys _ _ _ Hold) as Hk.
    destruct (erase_present w k Hk) as (old' & Hd & ->).
    apply lookup_value_deref in Hold.
    assert (old' = old) as -> by congruence.
    eexists _, _, _, _. split; [done|].
    rewrite erase_pos_valid; [done|].
    unfold um_deref in Hd. by eapply lookup_lt_Some.
  - intros Hk%lookup_value_None. eexists. split; [done|].
    split; [|by apply erase_absent].
    apply erase_pos_invalid. apply um_find_end in Hk. rewrite Hk.
    unfold um_end, um_size. lia.
Qed.

(** X11. An iterator and the key under it name the same node: in a
    container with unique keys, if there is a node under [pos] then [find]
    of its key returns [pos], [contains] of its key returns true and [at]
    of its key returns its mapped value. *)
Theorem find_inverts_deref w pos (e : Key * Value) :
  unique_keys (map_ (self w)) →
  um_deref pos (map_ (self w)) = Some e →
  find e.1 w = Returns pos w ∧
  contains e.1 w = Returns true w ∧
  at_ e.1 w = Returns e.2 w.
Proof.
  intros Hu He. pose proof (um_find_deref_inv _ _ _ Hu He) as Hf.
  split_and!.
  - unfold find. run_calls. by rewrite Hf.
  - unfold contains. run_calls. f_equal. apply bool_decide_eq_true.
    rewrite Hf. intros Hend. by rewrite Hend, um_deref_end in He.
  - unfold at_, um_at. run_calls. by rewrite Hf, He.
Qed.

(** X12. [empty] agrees with the other observers: it returns true exactly
    when [size] returns 0, exactly when [begin] and [end] return the same
    iterator, and exactly when [contains] returns false for every key.
    None of them changes the state. *)
Theorem empty_iff_nothing_contained w :
  ∃ b n first last,
    empty w = Returns b w ∧
    size w = Returns n w ∧
    begin w = Returns first w ∧
    end_ w = Returns last w ∧
    (b = true ↔ n = 0) ∧
    (b = true ↔ first = last) ∧
    (b = true ↔ ∀ k, contains k w = Returns false w).
Proof.
  eexists _, _, _, _. split_and!; try done.
  - unfold um_empty, um_size. apply bool_decide_eq_true.
  - unfold um_empty, um_begin, um_end. rewrite bool_decide_eq_true.
    split; congruence.
  - unfold um_empty. rewrite bool_decide_eq_true. split.
    + intros Hlen k. unfold contains. run_calls. f_equal.
      apply bool_decide_eq_false. intros Hne. apply Hne, um_find_end.
      apply nil_length_inv in Hlen. rewrite Hlen. unfold um_keys.
      apply not_elem_of_nil.
    + intros Hnone. destruct (map_ (self w)) as [|e m] eqn:Hm; [done|].
      assert (contains e.1 w = Returns true w) as Hc.
      { unfold contains. run_calls. f_equal. apply bool_decide_eq_true.
        rewrite um_find_end, Hm. intros Hn. apply Hn. left. }
      rewrite Hnone in Hc. discriminate.
Qed.
End further_properties.

Section reserve_facts.
Context {Key Value Obs : Type} `{EqDecision Key} `{!RehashPolicy Key Value}.

(** X13. [reserve] moves nodes at most, and may throw.  It either returns
    or throws (its behaviour is never undefined); when it throws, the whole
    state is as it was.  Either way the nodes afterwards are the nodes
    before (in some order), so the size is the same, and it emits no
    signal ([Reserved] and [Rehashed] are never sent).  In a container with
    unique keys every key maps afterwards to what it mapped to before. *)
Theorem reserve_keeps_contents (w : World Key Value Obs) (n : nat) :
  (∃ w', ends_in (reserve n w) w') ∧
  (∀ e w', reserve n w = Throws e w' → w' = w) ∧
  (∀ w', ends_in (reserve n w) w' →
     map_ (self w') ≡ₚ map_ (self w) ∧
     um_size (map_ (self w')) = um_size (map_ (self w)) ∧
     emitted w' = emitted w ∧
     observers w' = observers w ∧
     (unique_keys (map_ (self w)) →
        unique_keys (map_ (self w')) ∧
        ∀ k, lookup_value k (map_ (self w')) = lookup_value k (map_ (self w)))).
Proof.
  unfold reserve, um_reserve. run_calls.
  destruct (rehash_throws n (map_ (self w))) as [e|]; simpl.
  - split_and!; [by exists w|by intros ?? [= _ <-]|]. by intros w' <-.
  - split_and!; [by eexists|done|]. intros w' <-. simpl. unfold um_size.
    split_and!; try done.
    + apply rehash_perm.
    + by rewrite rehash_perm.
    + intros Hu. split.
      * unfold unique_keys, um_keys in *. by rewrite rehash_perm.
      * intros k. symmetry. apply lookup_value_perm; [done|].
        symmetry. apply rehash_perm.
Qed.
End reserve_facts.

(** * Sessions *)

Section session_facts.
Context {Key Value Obs : Type} `{EqDecision Key} `{!HashPolicy Key Value}.
Context `{!RehashPolicy Key Value} `{!Inhabited Value}.

Implicit Types (w : World Key Value Obs) (k : Key) (v : Value).

Lemma reached_refl n w : unique_keys (map_ (self w)) → reached n w w.
Proof.
  intros Hu. split_and!; [done..|]. exists []. rewrite app_nil_r.
  split_and!; [done|simpl; lia|constructor].
Qed.

Lemma reached_with_map n w (m : unordered_map Key Value) :
  unique_keys m → reached n w (with_map m w).
Proof.
  intros Hu. split_and!; [done..|]. exists []. simpl. rewrite app_nil_r.
  split_and!; [done|simpl; lia|constructor].
Qed.

Lemma reached_notified w (m : unordered_map Key Value) sig :
  unique_keys m →
  emission_ok (mkEmission sig m) →
  reached 1 w (notified sig (with_map m w)).
Proof.
  intros Hu Hok. split_and!; [done..|]. eexists. simpl.
  split_and!; [done|simpl; lia|]. by constructor.
Qed.

Lemma reached_trans n1 n2 w1 w2 w3 :
  reached n1 w1 w2 → reached n2 w2 w3 → reached (n1 + n2) w1 w3.
Proof.
  intros (_ & Hem1 & new1 & He1 & Hn1 & Hok1) (Hu & Hem2 & new2 & He2 & Hn2 & Hok2).
  split_and!; [done|congruence|]. exists (new1 ++ new2).
  split_and!.
  - by rewrite He2, He1, <- app_assoc.
  - rewrite length_app. lia.
  - by apply Forall_app.
Qed.

(** One call, from a container with unique keys. *)
Lemma run_call_reached (c : Call Key Value) w w' :
  unique_keys (map_ (self w)) →
  ends_in (run_call c w) w' →
  reached (if may_emit c then 1 else 0) w w'.
Proof.
  intros Hu.
  destruct c as [| |n| | |k|k|k|k v|k v|k v|k|k|pos|pos| |k v];
    unfold run_call, mbind, M_bind; simpl;
    try (intros <-; by apply reached_refl).
  - (* reserve *)
    unfold reserve, um_reserve. run_calls.
    destruct (rehash_throws n (map_ (self w))) as [e|]; simpl; intros <-.
    + by apply reached_refl.
    + apply reached_with_map.
      unfold unique_keys, um_keys in *. by rewrite rehash_perm.
  - (* at *)
    destruct (decide (k ∈ um_keys (map_ (self w)))) as [Hk|Hk].
    + destruct (at_present w k Hk) as (v & _ & ->).
      intros <-. by apply reached_refl.
    + rewrite at_absent by done. intros <-. by apply reached_refl.
  - (* insert_or_assign *)
    destruct (decide (k ∈ um_keys (map_ (self w)))) as [Hk|Hk].
    + rewrite insert_or_assign_present by done. intros <-.
      apply reached_with_map. unfold unique_keys. by rewrite um_assign_keys.
    + rewrite insert_or_assign_absent by done. intros <-.
      apply reached_with_map. by apply unique_keys_link_node.
  - (* try_emplace *)
    destruct (decide (k ∈ um_keys (map_ (self w)))) as [Hk|Hk].
    + rewrite try_emplace_present by done. intros <-. by apply reached_refl.
    + rewrite try_emplace_absent by done. intros <-.
      apply reached_with_map. by apply unique_keys_link_node.
  - (* emplace *)
    destruct (decide (k ∈ um_keys (map_ (self w)))) as [Hk|Hk].
    + rewrite emplace_present by done. intros <-. by apply reached_refl.
    + rewrite emplace_absent by done. intros <-.
      apply reached_notified; [by apply unique_keys_link_node|].
      unfold emission_ok. simpl. by apply link_node_lookup.
  - (* operator[] *)
    destruct (decide (k ∈ um_keys (map_ (self w)))) as [Hk|Hk].
    + destruct (subscript_present w k Hk) as (v & _ & ->).
      intros <-. by apply reached_refl.
    + rewrite subscript_absent by done. intros <-.
      apply reached_with_map. by apply unique_keys_link_node.
  - (* erase(key) *)
    destruct (decide (k ∈ um_keys (map_ (self w)))) as [Hk|Hk].
    + destruct (erase_present w k Hk) as (old & _ & ->). intros <-.
      apply reached_notified; [by apply unique_keys_delete|].
      unfold emission_ok. simpl. by apply lookup_value_None, delete_find_keys.
    + rewrite erase_absent by done. intros <-. by apply reached_refl.
  - (* erase(it->first) *)
    destruct (um_deref pos (map_ (self w))) as [e|] eqn:He.
    + rewrite (erase_ref_stored w pos e) by done.
      destruct (has_subscriber KErased (signal_emitter (self w))); [done|].
      intros <-. apply reached_notified; [by apply unique_keys_delete|].
      unfold emission_ok. simpl. apply lookup_value_None.
      rewrite <- (um_find_deref_inv pos e (map_ (self w))) by done.
      by apply delete_find_keys.
    + by rewrite erase_ref_stored_invalid.
  - (* erase(pos) *)
    destruct (decide (pos < um_size (map_ (self w)))) as [Hp|Hp].
    + rewrite erase_pos_valid by done. intros <-.
      apply reached_with_map. by apply unique_keys_delete.
    + rewrite erase_pos_invalid by lia. done.
  - (* clear *)
    intros <-. apply reached_with_map. apply unique_keys_nil.
  - (* update_if_exists *)
    destruct (decide (k ∈ um_keys (map_ (self w)))) as [Hk|Hk].
    + rewrite update_if_exists_present by done. intros <-.
      apply reached_with_map. unfold unique_keys. by rewrite um_assign_keys.
    + rewrite update_if_exists_absent by done. intros <-.
      by apply reached_refl.
Qed.

Lemma run_session_reached (cs : list (Call Key Value)) w w' :
  unique_keys (map_ (self w)) →
  ends_in (run_session cs w) w' →
  reached (length (filter (λ c, may_emit c = true) cs)) w w'.
Proof.
  revert w. induction cs as [|c cs IH]; intros w Hu; simpl.
  - intros <-. by apply reached_refl.
  - unfold mbind, M_bind. intros Hend.
    pose proof (run_call_reached c w) as Hstep.
    assert (length (filter (λ c, may_emit c = true) (c :: cs)) =
            (if may_emit c then 1 else 0)
            + length (filter (λ c, may_emit c = true) cs)) as ->.
    { rewrite filter_cons. by destruct (may_emit c). }
    destruct (run_call c w) as [[] w1|e w1|]; [| |done].
    + specialize (Hstep w1 Hu eq_refl).
      eapply reached_trans; [done|]. apply IH; [apply Hstep|done].
    + simpl in Hend. subst w'. specialize (Hstep w1 Hu eq_refl).
      replace ((if may_emit c then 1 else 0) + _)
        with ((if may_emit c then 1 else 0)
              + length (filter (λ c, may_emit c = true) cs) + 0) by lia.
      eapply reached_trans; [|apply reached_refl, Hstep].
      destruct Hstep as (Hu1 & Hem & new & He & Hn & Hok).
      split_and!; [done..|]. exists new. split_and!; [done|lia|done].
Qed.

(** X14. The class invariant survives every use of the class: whatever
    public member functions are called on a container with unique keys, in
    whatever order and whether the last one returns or throws, the keys
    are unique afterwards and [size()] is the number of distinct keys. *)
Theorem session_keeps_keys_unique (cs : list (Call Key Value)) w w' :
  unique_keys (map_ (self w)) →
  ends_in (run_session cs w) w' →
  unique_keys (map_ (self w')) ∧
  size w' = Returns (distinct_keys (map_ (self w'))) w'.
Proof.
  intros Hu Hend. destruct (run_session_reached cs w w' Hu Hend) as [Hu' _].
  split; [done|]. unfold size. run_calls. by rewrite size_distinct_keys.
Qed.

(** X15. Nothing but [Inserted] and [Erased] is ever emitted, and only
    by [emplace] and [erase(key)]: over any calls of the public member
    functions on a container with unique keys, the emissions added are at
    most one per [emplace] or [erase(key)] call; each is an [Inserted]
    whose key maps to its value in the container the callbacks read, or an
    [Erased] whose key is absent from it.  No [Updated], [Cleared],
    [Rehashed] or [Reserved] is sent, and the subscriptions are not
    touched. *)
Theorem session_emits_only_inserted_and_erased (cs : list (Call Key Value))
    w w' :
  unique_keys (map_ (self w)) →
  ends_in (run_session cs w) w' →
  signal_emitter (self w') = signal_emitter (self w) ∧
  ∃ new,
    emitted w' = emitted w ++ new ∧
    length new ≤ length (filter (λ c, may_emit c = true) cs) ∧
    Forall emission_ok new ∧
    Forall (λ e, kind_of (signal e) = KInserted ∨
                 kind_of (signal e) = KErased) new.
Proof.
  intros Hu Hend.
  destruct (run_session_reached cs w w' Hu Hend)
    as (_ & Hem & new & He & Hn & Hok).
  split; [done|]. exists new. split_and!; [done..|].
  eapply Forall_impl; [exact Hok|]. intros e. unfold emission_ok.
  destruct (signal e); simpl; auto; done.
Qed.
End session_facts.

(** * The further properties on a concrete container *)

#[local] Existing Instance keep_order_policy.

(** X2 on [two_entries]: emplacing 3 leaves 1 mapped to 10. *)
Lemma emplace_keeps_other_keys_witness :
  unique_keys (map_ (self two_entries)) ∧
  1 ≠ 3 ∧
  ∃ it inserted w',
    emplace 3 30 two_entries = Returns (it, inserted) w' ∧
    lookup_value 1 (map_ (self w')) = Some 10.
Proof.
  pose proof two_entries_unique_keys as Hu.
  assert (1 ≠ 3) as Hne by lia. split_and!; [done..|].
  destruct (emplace_keeps_other_keys two_entries 3 30 1 Hu Hne)
    as (it & inserted & w' & Hrun & Hl & _).
  by exists it, inserted, w'.
Defined.

(** X3 on [two_entries]: erasing 2 leaves 1 mapped to 10. *)
Lemma erase_keeps_other_keys_witness :
  unique_keys (map_ (self two_entries)) ∧
  1 ≠ 2 ∧
  ∃ n w',
    erase 2 two_entries = Returns n w' ∧
    lookup_value 1 (map_ (self w')) = Some 10 ∧
    um_size (map_ (self w')) + n = 2.
Proof.
  pose proof two_entries_unique_keys as Hu.
  assert (1 ≠ 2) as Hne by lia. split_and!; [done..|].
  destruct (erase_keeps_other_keys two_entries 2 1 Hu Hne)
    as (n & w' & Hrun & Hl & Hsize & _).
  by exists n, w'.
Defined.

(** X4 on [two_entries]: 3 is emplaced and erased again. *)
Lemma emplace_then_erase_restores_witness :
  lookup_value 3 (map_ (self two_entries)) = None ∧
  ∃ w',
    (emplace 3 30;; erase 3) two_entries = Returns 1 w' ∧
    map_ (self w') ≡ₚ [(2, 20); (1, 10)].
Proof.
  assert (lookup_value 3 (map_ (self two_entries)) = None) as Hk
    by reflexivity.
  split; [done|].
  destruct (emplace_then_erase_restores two_entries 3 30 Hk)
    as (w' & m1 & Hrun & Hp & _).
  by exists w'.
Defined.

(** X5 on [two_entries]: erasing 1 twice. *)
Lemma erase_twice_returns_zero_witness :
  unique_keys (map_ (self two_entries)) ∧
  ∃ n w', erase 1 two_entries = Returns n w' ∧ erase 1 w' = Returns 0 w'.
Proof.
  pose proof two_entries_unique_keys as Hu. split; [done|].
  exact (erase_twice_returns_zero two_entries 1 Hu).
Defined.

(** X11 on [two_entries]: the node of 1 is the second one. *)
Lemma find_inverts_deref_witness :
  unique_keys (map_ (self two_entries)) ∧
  um_deref 1 (map_ (self two_entries)) = Some (1, 10) ∧
  find 1 two_entries = Returns 1 two_entries ∧
  contains 1 two_entries = Returns true two_entries ∧
  at_ 1 two_entries = Returns 10 two_entries.
Proof.
  pose proof two_entries_unique_keys as Hu.
  assert (um_deref 1 (map_ (self two_entries)) = Some (1, 10)) as Hd
    by reflexivity.
  split_and!; [done..| | |];
    by apply (find_inverts_deref two_entries 1 (1, 10) Hu Hd).
Defined.

(** X14 on [demo_session]: the session stops at the throw of [at], with
    the keys still unique. *)
Lemma session_keeps_keys_unique_witness :
  unique_keys (map_ (self two_entries)) ∧
  ∃ w',
    run_session demo_session two_entries = Throws out_of_range w' ∧
    unique_keys (map_ (self w')) ∧
    size w' = Returns (distinct_keys (map_ (self w'))) w'.
Proof.
  pose proof two_entries_unique_keys as Hu. split; [done|].
  destruct (run_session demo_session two_entries) as [[] w'|[] w'|] eqn:Hrun;
    try (vm_compute in Hrun; discriminate).
  exists w'. split; [done|].
  apply (session_keeps_keys_unique demo_session two_entries w' Hu).
  by rewrite Hrun.
Defined.

(** X15 on [demo_session]: two calls may emit, and the emissions made are
    acceptable. *)
Lemma session_emits_only_inserted_and_erased_witness :
  unique_keys (map_ (self two_entries)) ∧
  ∃ w',
    run_session demo_session two_entries = Throws out_of_range w' ∧
    length (emitted w') ≤ 2 ∧
    Forall emission_ok (emitted w').
Proof.
  pose proof two_entries_unique_keys as Hu. split; [done|].
  destruct (run_session demo_session two_entries) as [[] w'|[] w'|] eqn:Hrun;
    try (vm_compute in Hrun; discriminate).
  exists w'. split; [done|].
  destruct (session_emits_only_inserted_and_erased demo_session two_entries w' Hu)
    as (_ & new & He & Hn & Hok & _); [by rewrite Hrun|].
  simpl in He. rewrite He. by split.
Defined.

(** * [erase] through the key of a node, on a concrete container *)

(** C2 on [two_entries], where [probe] listens for [Erased]: the node of 1
    is the second one. *)
Lemma erase_of_stored_key_is_undefined_witness :
  unique_keys (map_ (self two_entries)) ∧
  um_deref 1 (map_ (self two_entries)) = Some (1, 10) ∧
  has_subscriber KErased (signal_emitter (self two_entries)) = true ∧
  erase_ref (stored_key 1) two_entries = Undefined ∧
  ∃ w',
    erase_ref (caller_key 1) two_entries = Returns 1 w' ∧
    emitted w' = [mkEmission (Erased 1 10) (map_ (self w'))].
Proof.
  pose proof two_entries_unique_keys as Hu.
  assert (um_deref 1 (map_ (self two_entries)) = Some (1, 10)) as Hd
    by reflexivity.
  assert (has_subscriber KErased (signal_emitter (self two_entries)) = true)
    as Hsub by reflexivity.
  split_and!; [done..| |];
    by apply (erase_of_stored_key_is_undefined two_entries 1 (1, 10) Hu Hd Hsub).
Defined.

(** C5, where the code departs from it.  On [two_entries] the callback
    registered for [Erased] looks the key of the signal up in the
    container.  When [erase] is handed the key of the node of 1 itself
    ([m.erase(it->first)]), the emission comes after the node is freed and
    the callback would read the key through a reference to it: the
    behaviour is undefined.  Handed a copy of the key, the same callback
    runs after the removal and finds the key absent. *)
Theorem reentrant_lookup_after_erase_of_stored_key :
  erase_ref (stored_key 1) two_entries = Undefined ∧
  ∃ w',
    erase_ref (caller_key 1) two_entries = Returns 1 w' ∧
    map_ (self w') = [(2, 20)] ∧
    observers w' = [None].
Proof.
  split; [reflexivity|].
  exists (notified (Erased 1 10) (with_map [(2, 20)] two_entries)).
  by split_and!.
Qed.

(** X13 with [small_table_policy], which has room for 64 elements:
    [reserve(8)] returns and [reserve(100)] throws, the contents kept. *)
Lemma reserve_keeps_contents_witness :
  (∃ w',
     reserve (RehashPolicy0 := small_table_policy nat nat) 8 two_entries =
       Returns () w' ∧
     um_size (map_ (self w')) = 2 ∧
     lookup_value 2 (map_ (self w')) = Some 20) ∧
  (∃ e,
     reserve (RehashPolicy0 := small_table_policy nat nat) 100 two_entries =
       Throws e two_entries).
Proof.
  pose proof two_entries_unique_keys as Hu.
  destruct (reserve_keeps_contents
              (RehashPolicy0 := small_table_policy nat nat) two_entries 8)
    as (_ & _ & Hkeep).
  destruct (reserve_keeps_contents
              (RehashPolicy0 := small_table_policy nat nat) two_entries 100)
    as (_ & Hthrow & _).
  split.
  - destruct (reserve (RehashPolicy0 := small_table_policy nat nat) 8
                two_entries) as [[] w'|e w'|] eqn:Hrun;
      try (vm_compute in Hrun; discriminate).
    exists w'. split; [done|].
    destruct (Hkeep w' eq_refl) as (_ & Hsize & _ & _ & Hlook).
    split; [done|]. by rewrite (proj2 (Hlook Hu) 2).
  - destruct (reserve (RehashPolicy0 := small_table_policy nat nat) 100
                two_entries) as [[] w'|e w'|] eqn:Hrun;
      try (vm_compute in Hrun; discriminate).
    exists e. by rewrite (Hthrow e w' eq_refl).
Defined.
